(** * opcode: session registry and checkpoint timeline

    A shallow embedding of
    - [src/services/sessionStorage.ts] (the persisted session registry) and
    - [src/components/TimelineNavigator.tsx] (loading, enriching and
      filtering checkpoints; forking a checkpoint),
    followed by the properties of these functions.

    Strings are sequences of 8-bit code units; numbers that the code
    uses as integers (timestamps in milliseconds, indices, counts) are in
    [Z]. *)

From Stdlib Require Import ZArith String Ascii.
From stdpp Require Import gmap strings list fin_maps sorting pretty.

Local Open Scope Z_scope.

(* ===================================================================== *)
(** * Part I: definitions *)
(* ===================================================================== *)

(** ** The session registry, [services/sessionStorage.ts] *)

Module SessionStorage.

Record StoredSession := {
  sessionId : string;
  projectPath : string;
  messages : list string;   (* any[]: opaque serialisable records *)
  timestamp : Z;
}.

Definition SESSION_EXPIRY_MS : Z := 24 * 60 * 60 * 1000.

(** What [localStorage.getItem(SESSION_STORAGE_KEY)] can hold: a string
    that [JSON.parse] rejects, or the serialisation of a
    [Record<string, StoredSession>]. *)
Inductive Blob :=
| Malformed
| Json (sessions : gmap string StoredSession).

(** The environment of the registry.  [localStorage = None] stands for a
    missing key (or the empty string: both are falsy in the guard
    [if (!stored)]).  [writable = false] makes [setItem] throw (quota
    exceeded, storage unavailable).  [clock] is what the next
    [Date.now()] returns; [ticks] lists the milliseconds that elapse
    after each successive reading. *)
Record World := {
  localStorage : option Blob;
  writable : bool;
  clock : Z;
  ticks : list N;
  console : list string;
}.

(** *** A monad for state and exceptions *)

Inductive outcome (A : Type) :=
| Returned (a : A)
| Thrown.
Arguments Returned {A} a.
Arguments Thrown {A}.

Definition M (A : Type) : Type := World → outcome A * World.

Definition ret {A} (a : A) : M A := λ w, (Returned a, w).

Definition bind {A B} (c : M A) (k : A → M B) : M B :=
  λ w, match c w with
       | (Returned a, w') => k a w'
       | (Thrown, w') => (Thrown, w')
       end.

Definition throw {A} : M A := λ w, (Thrown, w).

(** [try { body } catch (err) { handler }]: what [body] did to the world
    before it threw stays done. *)
Definition try_catch {A} (body handler : M A) : M A :=
  λ w, match body w with
       | (Returned a, w') => (Returned a, w')
       | (Thrown, w') => handler w'
       end.

Notation "'let*' x ':=' c 'in' k" := (bind c (λ x, k))
  (at level 10, x name, c at level 100, k at level 200).

(** *** Primitives *)

Definition Date_now : M Z :=
  λ w, (Returned (clock w),
        match ticks w with
        | [] => w
        | d :: ds =>
            {| localStorage := localStorage w; writable := writable w;
               clock := clock w + Z.of_N d; ticks := ds;
               console := console w |}
        end).

Definition getItem : M (option Blob) :=
  λ w, (Returned (localStorage w), w).

(** [localStorage.setItem(KEY, JSON.stringify(sessions))] *)
Definition setItem (sessions : gmap string StoredSession) : M unit :=
  λ w, if writable w
       then (Returned tt,
             {| localStorage := Some (Json sessions); writable := writable w;
                clock := clock w; ticks := ticks w; console := console w |})
       else (Thrown, w).

Definition removeItem : M unit :=
  λ w, if writable w
       then (Returned tt,
             {| localStorage := None; writable := writable w;
                clock := clock w; ticks := ticks w; console := console w |})
       else (Thrown, w).

Definition JSON_parse (stored : Blob) : M (gmap string StoredSession) :=
  match stored with
  | Malformed => throw
  | Json sessions => ret sessions
  end.

Definition console_error (msg : string) : M unit :=
  λ w, (Returned tt,
        {| localStorage := localStorage w; writable := writable w;
           clock := clock w; ticks := ticks w;
           console := console w ++ [msg] |}).

(** *** The operations *)

(** The body of the [forEach] in [getAllSessions]:
    [if (now - sessions[id].timestamp > SESSION_EXPIRY_MS) delete sessions[id]].
    The ids come from [Object.keys(sessions)] and an iteration deletes
    its own id only, so [sessions[id]] is always present. *)
Definition drop_if_expired (now : Z)
    (sessions : gmap string StoredSession) (id : string)
    : gmap string StoredSession :=
  match sessions !! id with
  | Some s =>
      if now - timestamp s >? SESSION_EXPIRY_MS
      then delete id sessions
      else sessions
  | None => sessions
  end.

Definition Object_keys (sessions : gmap string StoredSession) : list string :=
  (map_to_list sessions).*1.

Definition getAllSessions : M (gmap string StoredSession) :=
  try_catch
    (let* stored := getItem in
     match stored with
     | None => ret ∅
     | Some blob =>
         let* sessions := JSON_parse blob in
         let* now := Date_now in
         ret (foldl (drop_if_expired now) sessions (Object_keys sessions))
     end)
    (let* _ := console_error "Failed to parse sessions from storage:" in ret ∅).

Definition removeSession (id : string) : M unit :=
  try_catch
    (let* sessions := getAllSessions in
     setItem (delete id sessions))
    (console_error "Failed to remove session from storage:").

Definition saveSession (id path : string) (msgs : list string) : M unit :=
  try_catch
    (let* sessions := getAllSessions in
     let* now := Date_now in
     setItem (<[id := {| sessionId := id; projectPath := path;
                         messages := msgs; timestamp := now |}]> sessions))
    (console_error "Failed to save session to storage:").

Definition getSession (id : string) : M (option StoredSession) :=
  try_catch
    (let* sessions := getAllSessions in
     match sessions !! id with
     | None => ret None
     | Some session =>
         let* now := Date_now in
         if now - timestamp session >? SESSION_EXPIRY_MS
         then (let* _ := removeSession id in ret None)
         else ret (Some session)
     end)
    (let* _ := console_error "Failed to get session from storage:" in ret None).

Definition clearAllSessions : M unit :=
  try_catch removeItem
    (console_error "Failed to clear sessions from storage:").

(** What [getAllSessions] returns for a store holding [m], read at [now]. *)
Definition live_entries (now : Z) (m : gmap string StoredSession)
    : gmap string StoredSession :=
  foldl (drop_if_expired now) m (Object_keys m).

(** *** Reading a world *)

(** The registry as an independent reader of the store sees it. *)
Definition persisted (w : World) : gmap string StoredSession :=
  match localStorage w with
  | Some (Json sessions) => sessions
  | _ => ∅
  end.

Definition expired_at (now : Z) (s : StoredSession) : Prop :=
  now - timestamp s > SESSION_EXPIRY_MS.

(** The reading of the clock that follows the current one. *)
Definition next_clock (w : World) : Z := clock (Date_now w).2.

(** The claim made for [getAllSessions], as a predicate on the world the
    call starts from: the result has no expired entry, and neither has
    the store after the call. *)
Definition getAllSessions_compacts (w : World) : Prop :=
  (∀ m id s, (getAllSessions w).1 = Returned m → m !! id = Some s →
             ¬ expired_at (clock w) s) ∧
  (∀ id s, persisted (getAllSessions w).2 !! id = Some s →
           ¬ expired_at (clock w) s).

(** The claim made for [getSession], for a session [s] stored under
    [id]: absent and removed from the store once the age reaches the
    expiry, returned unchanged before. *)
Definition getSession_expires (w : World) (id : string) (s : StoredSession)
    : Prop :=
  (SESSION_EXPIRY_MS ≤ clock w - timestamp s →
     (getSession id w).1 = Returned None ∧
     persisted (getSession id w).2 !! id = None) ∧
  (clock w - timestamp s < SESSION_EXPIRY_MS →
     (getSession id w).1 = Returned (Some s)).

(** *** Sample worlds *)

Definition session_a (t : Z) : StoredSession :=
  {| sessionId := "a"; projectPath := "/p"; messages := ["m0"];
     timestamp := t |}.

Definition world_with (m : gmap string StoredSession) (now : Z) : World :=
  {| localStorage := Some (Json m); writable := true; clock := now;
     ticks := []; console := [] |}.

(** One session written at time 0, read one millisecond after expiry. *)
Definition stale_world : World :=
  world_with {[ "a" := session_a 0 ]} (SESSION_EXPIRY_MS + 1).

(** One session written at time 0, read exactly 24 hours later. *)
Definition boundary_world : World :=
  world_with {[ "a" := session_a 0 ]} SESSION_EXPIRY_MS.

(** A stale and a fresh session. *)
Definition mixed_world : World :=
  world_with {[ "a" := session_a 0;
                "b" := {| sessionId := "b"; projectPath := "/q";
                          messages := []; timestamp := 90000000 |} ]}
             90000001.

End SessionStorage.

(** ** The checkpoint timeline, [components/TimelineNavigator.tsx] *)

Module Timeline.

(** *** Strings *)

(** [!!s] for a string. *)
Definition truthy (s : string) : bool :=
  match s with
  | EmptyString => false
  | String _ _ => true
  end.

(** [!!s] for a string field that may be [undefined]. *)
Definition truthy_field (s : option string) : bool :=
  match s with
  | Some s => truthy s
  | None => false
  end.

(** The white space that [String.prototype.trim] strips, among the 8-bit
    code units: TAB, LF, VT, FF, CR, SP and NBSP. *)
Definition is_whitespace (c : ascii) : bool :=
  let n := nat_of_ascii c in
  ((9 <=? n)%nat && (n <=? 13)%nat) || (n =? 32)%nat || (n =? 160)%nat.

Fixpoint trim_start (s : string) : string :=
  match s with
  | EmptyString => EmptyString
  | String c s' => if is_whitespace c then trim_start s' else s
  end.

Fixpoint trim_end (s : string) : string :=
  match s with
  | EmptyString => EmptyString
  | String c s' =>
      match trim_end s' with
      | EmptyString => if is_whitespace c then EmptyString
                       else String c EmptyString
      | t => String c t
      end
  end.

Definition trim (s : string) : string := trim_end (trim_start s).

(** [text.substring(0, 150) + (text.length > 150 ? '...' : '')], the
    expression that [extractMessageInfo] uses for every preview. *)
Definition truncate150 (text : string) : string :=
  (substring 0 150 text
   +:+ (if (150 <? String.length text)%nat then "..." else ""))%string.

(** *** Messages *)

(** Modelled from the spec: the declaration of [ClaudeStreamMessage]
    (imported from [./AgentExecution]) is not among the sources and the
    spec calls messages opaque records, so a message has here the fields
    that [extractMessageInfo] reads, each with the shapes that the
    function tells apart. *)
Inductive TextField :=
| TextUndefined
| TextString (s : string)
| TextObject (text : option string).   (* an object; its own [text] field *)

Record ContentItem := {
  item_type : string;
  item_text : TextField;
  item_name : option string;
}.

(** [message.message?.content] *)
Inductive MessageContent :=
| ContentUndefined
| ContentString (s : string)
| ContentArray (items : list ContentItem).

Record ClaudeStreamMessage := {
  msg_type : string;
  msg_content : MessageContent;
}.

Definition content_truthy (c : MessageContent) : bool :=
  match c with
  | ContentUndefined => false
  | ContentString s => truthy s
  | ContentArray _ => true
  end.

Record MessageInfo := { content : string; tools : list string }.

(** The value of [textValue] for an item of type ['text'] in the
    assistant branch. *)
Definition text_value (t : TextField) : string :=
  match t with
  | TextUndefined => ""
  | TextString s => s
  | TextObject (Some s) => s
  | TextObject None => ""
  end.

(** One iteration of [for (const item of message.message.content)]. *)
Definition assistant_item (acc : string * list string) (item : ContentItem)
    : string * list string :=
  let '(content, tools) := acc in
  if String.eqb (item_type item) "text" then
    let textValue := text_value (item_text item) in
    if truthy textValue && (String.length content <? 150)%nat
    then (truncate150 textValue, tools)
    else (content, tools)
  else if String.eqb (item_type item) "tool_use" then
    match item_name item with
    | Some name => if truthy name then (content, tools ++ [name])
                   else (content, tools)
    | None => (content, tools)
    end
  else (content, tools).

(** The user branch, for an array [content]. *)
Definition user_content (items : list ContentItem) : string :=
  match List.find (λ c, String.eqb (item_type c) "text") items with
  | Some textContent =>
      match item_text textContent with
      | TextUndefined => ""
      | TextString s => if truthy s then truncate150 s else ""
      | TextObject (Some s) => truncate150 s
      | TextObject None => truncate150 ""
      end
  | None => ""
  end.

(** [messages] is a required prop and an array here, so the guard
    [!messages] is false; the lookup inside the bounds always finds a
    message. *)
Definition extractMessageInfo
    (messages : list ClaudeStreamMessage) (messageIndex : Z) : MessageInfo :=
  if (messageIndex <? 0) || (Z.of_nat (length messages) <=? messageIndex)
  then {| content := ""; tools := [] |}
  else
    match messages !! Z.to_nat messageIndex with
    | None => {| content := ""; tools := [] |}
    | Some message =>
        let '(content, tools) :=
          if String.eqb (msg_type message) "assistant"
             && content_truthy (msg_content message)
          then
            match msg_content message with
            | ContentArray items => foldl assistant_item ("", []) items
            | ContentString contentStr => (truncate150 contentStr, [])
            | ContentUndefined => ("", [])
            end
          else if String.eqb (msg_type message) "user"
                  && content_truthy (msg_content message)
          then
            match msg_content message with
            | ContentArray items => (user_content items, [])
            | _ => ("", [])
            end
          else ("", []) in
        {| content := if truthy content then content else "No content";
           tools := tools |}
    end.

(** *** Checkpoints and diffs *)

(** Modelled from the spec: [TitorCheckpointInfo] is declared in
    [../lib/api], which is not among the sources; the fields are those of
    the spec's CheckpointInfo. *)
Record TitorCheckpointInfo := {
  checkpointId : string;
  messageIndex : Z;
  timestamp : string;
  fileCount : Z;
}.

(** An element of [addedFiles] or [deletedFiles], as [extractFilePath]
    tells the shapes apart: a string, an object (with its optional path
    and size fields), or anything else (which is truthy or not). *)
Inductive FileObj :=
| FileString (s : string)
| FileObject (path file_path name : option string)
             (size file_size total_size : option Z)
| FileOther (is_truthy : bool).

(** An element of [modifiedFiles]: an object with fields [old] and [new],
    or anything else. *)
Inductive ModifiedObj :=
| ModifiedPair (old new : FileObj)
| ModifiedFile (f : FileObj).

Record DiffResponse := {
  addedFiles : list FileObj;
  modifiedFiles : list ModifiedObj;
  deletedFiles : list FileObj;
}.

Record FileRef := { path : string; size : option Z }.

Inductive ModifiedRef :=
| SizedChange (path : string) (oldSize newSize : option Z)
| PlainChange (f : FileRef).

Record FilesChanged := { added : Z; modified : Z; deleted : Z }.

Record DetailedFileChanges := {
  detail_added : list FileRef;
  detail_modified : list ModifiedRef;
  detail_deleted : list FileRef;
}.

Record CheckpointWithUIState := {
  info : TitorCheckpointInfo;          (* ...checkpoint *)
  verified : option bool;
  parentId : option string;
  messageContent : option string;
  toolsUsed : option (list string);
  filesChanged : option FilesChanged;
  detailedFileChanges : option DetailedFileChanges;
}.

(** [a || b] on optional sizes: 0 and [undefined] are falsy. *)
Definition or_size (a b : option Z) : option Z :=
  match a with
  | Some n => if n =? 0 then b else a
  | None => b
  end.

Definition file_truthy (f : FileObj) : bool :=
  match f with
  | FileString s => truthy s
  | FileObject _ _ _ _ _ _ => true
  | FileOther t => t
  end.

Definition extractFilePath (fileObj : FileObj) : FileRef :=
  match fileObj with
  | FileString s => {| path := s; size := None |}
  | FileObject p fp n sz fsz tsz =>
      {| path := if truthy_field p then default "" p
                 else if truthy_field fp then default "" fp
                 else if truthy_field n then default "" n
                 else "Unknown file";
         size := or_size sz (or_size fsz tsz) |}
  | FileOther _ => {| path := "Unknown file"; size := None |}
  end.

(** The callback of [diff.modifiedFiles.map].  An object with [old] and
    [new] one of which is falsy goes to [extractFilePath] as it is, where
    it is an object without path or size. *)
Definition extractModified (modPair : ModifiedObj) : ModifiedRef :=
  match modPair with
  | ModifiedPair old new =>
      if file_truthy old && file_truthy new then
        let oldFile := extractFilePath old in
        let newFile := extractFilePath new in
        SizedChange (path newFile) (size oldFile) (size newFile)
      else PlainChange {| path := "Unknown file"; size := None |}
  | ModifiedFile f => PlainChange (extractFilePath f)
  end.

(** [result.sort((a, b) => a.messageIndex - b.messageIndex)]: the sort
    of an array is stable, and this insertion sort is: an element goes
    before the first element that it does not exceed. *)
Fixpoint insert_by_messageIndex
    (x : TitorCheckpointInfo) (l : list TitorCheckpointInfo)
    : list TitorCheckpointInfo :=
  match l with
  | [] => [x]
  | y :: l' =>
      if messageIndex x <=? messageIndex y then x :: l
      else y :: insert_by_messageIndex x l'
  end.

Definition sort_by_messageIndex (l : list TitorCheckpointInfo)
    : list TitorCheckpointInfo :=
  foldr insert_by_messageIndex [] l.

(** *** The component and its environment *)

(** Modelled from the spec: the checkpoint API ([../lib/api], not among
    the sources), with the operations of the spec's section on external
    interfaces that the functions below call.  [None] is a rejected
    promise.  Listing and diffing read the backend; forking changes it. *)
Record Api := {
  Backend : Type;
  titorListCheckpoints :
    Backend → string → option (list TitorCheckpointInfo);
  titorListAllCheckpoints :
    Backend → string → option (list TitorCheckpointInfo);
  titorDiffCheckpoints :
    Backend → string → string → string → option DiffResponse;
  titorForkCheckpoint :
    Backend → string → string → string → Backend * option string;
}.

(** The props; for an optional callback, whether the parent passed it. *)
Record Props := {
  sessionId : string;
  projectPath : string;
  currentMessageIndex : Z;
  messages : list ClaudeStreamMessage;
  onCheckpointRestore : bool;
  onForkCheckpoint : bool;
  showAllSessions : bool;
}.

Inductive Request :=
| ListCheckpoints (sessionId : string)
| ListAllCheckpoints (projectPath : string)
| DiffCheckpoints (sessionId fromId toId : string)
| ForkCheckpoint (sessionId checkpointId description : string).

Inductive LogLine :=
| Warn (msg checkpointId : string)
| Error (msg : string).

Inductive Callback :=
| CheckpointRestored (checkpointId : string)
| CheckpointForked (forkedCheckpointId forkMessage : string).

(** The [useState] cells that the modelled functions read or write. *)
Record UI := {
  checkpoints : list CheckpointWithUIState;
  isLoading : bool;
  error : option string;
  isOpen : bool;
  selectedCheckpoint : option string;
  showForkDialog : bool;
  forkMessage : string;
  isRestoring : bool;
}.

Definition setCheckpoints (v : list CheckpointWithUIState) (u : UI) : UI :=
  {| checkpoints := v; isLoading := isLoading u; error := error u;
     isOpen := isOpen u; selectedCheckpoint := selectedCheckpoint u;
     showForkDialog := showForkDialog u; forkMessage := forkMessage u;
     isRestoring := isRestoring u |}.

Definition setIsLoading (v : bool) (u : UI) : UI :=
  {| checkpoints := checkpoints u; isLoading := v; error := error u;
     isOpen := isOpen u; selectedCheckpoint := selectedCheckpoint u;
     showForkDialog := showForkDialog u; forkMessage := forkMessage u;
     isRestoring := isRestoring u |}.

Definition setError (v : option string) (u : UI) : UI :=
  {| checkpoints := checkpoints u; isLoading := isLoading u; error := v;
     isOpen := isOpen u; selectedCheckpoint := selectedCheckpoint u;
     showForkDialog := showForkDialog u; forkMessage := forkMessage u;
     isRestoring := isRestoring u |}.

Definition setIsOpen (v : bool) (u : UI) : UI :=
  {| checkpoints := checkpoints u; isLoading := isLoading u; error := error u;
     isOpen := v; selectedCheckpoint := selectedCheckpoint u;
     showForkDialog := showForkDialog u; forkMessage := forkMessage u;
     isRestoring := isRestoring u |}.

Definition setSelectedCheckpoint (v : option string) (u : UI) : UI :=
  {| checkpoints := checkpoints u; isLoading := isLoading u; error := error u;
     isOpen := isOpen u; selectedCheckpoint := v;
     showForkDialog := showForkDialog u; forkMessage := forkMessage u;
     isRestoring := isRestoring u |}.

Definition setShowForkDialog (v : bool) (u : UI) : UI :=
  {| checkpoints := checkpoints u; isLoading := isLoading u; error := error u;
     isOpen := isOpen u; selectedCheckpoint := selectedCheckpoint u;
     showForkDialog := v; forkMessage := forkMessage u;
     isRestoring := isRestoring u |}.

Definition setForkMessage (v : string) (u : UI) : UI :=
  {| checkpoints := checkpoints u; isLoading := isLoading u; error := error u;
     isOpen := isOpen u; selectedCheckpoint := selectedCheckpoint u;
     showForkDialog := showForkDialog u; forkMessage := v;
     isRestoring := isRestoring u |}.

Definition setIsRestoring (v : bool) (u : UI) : UI :=
  {| checkpoints := checkpoints u; isLoading := isLoading u; error := error u;
     isOpen := isOpen u; selectedCheckpoint := selectedCheckpoint u;
     showForkDialog := showForkDialog u; forkMessage := forkMessage u;
     isRestoring := v |}.

(** The filter on the enhanced checkpoints at the end of
    [loadCheckpoints]. *)
Definition has_file_changes (checkpoint : CheckpointWithUIState) : bool :=
  match filesChanged checkpoint with
  | Some fc => (added fc >? 0) || (modified fc >? 0) || (deleted fc >? 0)
  | None => false
  end.

(** What one run of the callback of [sortedCheckpoints.map] produces:
    the enhanced checkpoint, the diff requests it sent and the warnings
    it logged. *)
Record Enhancement := {
  enhanced : CheckpointWithUIState;
  diff_requests : list Request;
  warnings : list LogLine;
}.

Section Component.
Context (api : Api) (props : Props).

(** The component state, the backend behind the API, and what the
    component has sent, logged and called back so far. *)
Record World := {
  ui : UI;
  backend : Backend api;
  requests : list Request;
  console : list LogLine;
  callbacks : list Callback;
}.

Definition update (f : UI → UI) (w : World) : World :=
  {| ui := f (ui w); backend := backend w; requests := requests w;
     console := console w; callbacks := callbacks w |}.

Definition send (rs : list Request) (w : World) : World :=
  {| ui := ui w; backend := backend w; requests := requests w ++ rs;
     console := console w; callbacks := callbacks w |}.

Definition log (ls : list LogLine) (w : World) : World :=
  {| ui := ui w; backend := backend w; requests := requests w;
     console := console w ++ ls; callbacks := callbacks w |}.

Definition call_back (c : Callback) (w : World) : World :=
  {| ui := ui w; backend := backend w; requests := requests w;
     console := console w; callbacks := callbacks w ++ [c] |}.

Definition set_backend (b : Backend api) (w : World) : World :=
  {| ui := ui w; backend := b; requests := requests w;
     console := console w; callbacks := callbacks w |}.

(** The callback of [sortedCheckpoints.map] in [loadCheckpoints].  The
    [try] covers the diff: a rejected request, or a missing previous
    checkpoint, leaves [filesChanged] and [detailedFileChanges]
    undefined and logs a warning. *)
Definition enhance (b : Backend api)
    (sortedCheckpoints : list TitorCheckpointInfo)
    (index : nat) (checkpoint : TitorCheckpointInfo) : Enhancement :=
  let mi := extractMessageInfo (messages props) (messageIndex checkpoint) in
  let attempt : option (FilesChanged * DetailedFileChanges) * list Request :=
    if (0 <? index)%nat then
      match sortedCheckpoints !! (index - 1)%nat with
      | Some prevCheckpoint =>
          let request :=
            DiffCheckpoints (sessionId props)
              (checkpointId prevCheckpoint) (checkpointId checkpoint) in
          match titorDiffCheckpoints api b (sessionId props)
                  (checkpointId prevCheckpoint) (checkpointId checkpoint)
          with
          | Some diff =>
              let detailed :=
                {| detail_added := extractFilePath <$> addedFiles diff;
                   detail_modified := extractModified <$> modifiedFiles diff;
                   detail_deleted := extractFilePath <$> deletedFiles diff |} in
              (Some ({| added := Z.of_nat (length (detail_added detailed));
                        modified := Z.of_nat (length (detail_modified detailed));
                        deleted := Z.of_nat (length (detail_deleted detailed)) |},
                     detailed),
               [request])
          | None => (None, [request])
          end
      | None => (None, [])
      end
    else
      (Some ({| added := fileCount checkpoint; modified := 0; deleted := 0 |},
             {| detail_added := []; detail_modified := [];
                detail_deleted := [] |}),
       []) in
  {| enhanced :=
       {| info := checkpoint; verified := None; parentId := None;
          messageContent := Some (content mi);
          toolsUsed := Some (tools mi);
          filesChanged := fst <$> attempt.1;
          detailedFileChanges := snd <$> attempt.1 |};
     diff_requests := attempt.2;
     warnings :=
       match attempt.1 with
       | Some _ => []
       | None => [Warn "Failed to get diff for checkpoint:"
                       (checkpointId checkpoint)]
       end |}.

(** The list request of [loadCheckpoints] and its response. *)
Definition list_request : Request :=
  if showAllSessions props && truthy (projectPath props)
  then ListAllCheckpoints (projectPath props)
  else ListCheckpoints (sessionId props).

Definition list_response (b : Backend api)
    : option (list TitorCheckpointInfo) :=
  if showAllSessions props && truthy (projectPath props)
  then titorListAllCheckpoints api b (projectPath props)
  else titorListCheckpoints api b (sessionId props).

(** [Promise.all(sortedCheckpoints.map(...))]: the callbacks send
    their requests in the order of the array, and the results come
    back in that order whatever the order of completion. *)
Definition enhance_all (b : Backend api) (result : list TitorCheckpointInfo)
    : list Enhancement :=
  let sortedCheckpoints := sort_by_messageIndex result in
  imap (enhance b sortedCheckpoints) sortedCheckpoints.

Definition loadCheckpoints (w : World) : World :=
  let w := update (setError None ∘ setIsLoading true) w in
  let w := send [list_request] w in
  match list_response (backend w) with
  | Some result =>
      let enhancements := enhance_all (backend w) result in
      let enhancedCheckpoints := enhanced <$> enhancements in
      let checkpointsWithFileChanges :=
        List.filter has_file_changes enhancedCheckpoints in
      let w := send (concat (diff_requests <$> enhancements)) w in
      let w := log (concat (warnings <$> enhancements)) w in
      update (setIsLoading false ∘ setCheckpoints checkpointsWithFileChanges) w
  | None =>
      let w := log [Error "Failed to load checkpoints:"] w in
      update (setIsLoading false ∘ setError (Some "Failed to load checkpoints")) w
  end.

Definition handleRestoreCheckpoint (checkpointId : string) (w : World)
    : World :=
  let w := update (setIsOpen false) w in
  if onCheckpointRestore props
  then call_back (CheckpointRestored checkpointId) w
  else w.

(** [selectedCheckpoint] and [forkMessage] are those of the render that
    created the handler, so the callback gets the description as it
    was typed, not the cleared one. *)
Definition handleForkCheckpoint (w : World) : World :=
  let selected := default "" (selectedCheckpoint (ui w)) in
  let description := forkMessage (ui w) in
  if negb (truthy selected) || negb (truthy (trim description)) then w
  else
    let w := update (setError None ∘ setIsRestoring true) w in
    let w := send [ForkCheckpoint (sessionId props) selected description] w in
    let '(b, response) :=
      titorForkCheckpoint api (backend w) (sessionId props)
        selected description in
    let w := set_backend b w in
    match response with
    | Some forkedCheckpointId =>
        let w := loadCheckpoints w in
        let w := update (setIsOpen false ∘ setSelectedCheckpoint None
                         ∘ setForkMessage "" ∘ setShowForkDialog false) w in
        let w := if onForkCheckpoint props
                 then call_back (CheckpointForked forkedCheckpointId
                                   description) w
                 else w in
        update (setIsRestoring false) w
    | None =>
        let w := log [Error "Failed to fork checkpoint:"] w in
        update (setIsRestoring false
                ∘ setError (Some "Failed to fork checkpoint")) w
    end.

End Component.

Arguments ui {api} w.
Arguments backend {api} w.
Arguments requests {api} w.
Arguments console {api} w.
Arguments callbacks {api} w.

(** The total change count of an enhanced checkpoint; one without
    [filesChanged] counts no change. *)
Definition total_changes (c : CheckpointWithUIState) : Z :=
  match filesChanged c with
  | Some fc => added fc + modified fc + deleted fc
  | None => 0
  end.

Definition published_indices {api} (w : World api) : list Z :=
  (λ c, messageIndex (info c)) <$> checkpoints (ui w).

Definition index_le (a b : TitorCheckpointInfo) : Prop :=
  messageIndex a ≤ messageIndex b.

Definition ascending (indices : list Z) : Prop := Sorted Z.le indices.

Definition strictly_ascending (indices : list Z) : Prop := Sorted Z.lt indices.

(** *** Notions that the properties are stated with *)

Definition is_text_item (c : ContentItem) : bool :=
  String.eqb (item_type c) "text".

Definition item_texts (items : list ContentItem) : list string :=
  (λ c, text_value (item_text c)) <$> List.filter is_text_item items.

(** The texts that a message carries: its string content, or the texts
    of the ['text'] items of its array content. *)
Definition message_texts (m : ClaudeStreamMessage) : list string :=
  match msg_content m with
  | ContentUndefined => []
  | ContentString s => [s]
  | ContentArray items => item_texts items
  end.

Definition some_text (items : list ContentItem) : bool :=
  existsb (λ c, is_text_item c && truthy (text_value (item_text c))) items.

(** The names of the ['tool_use'] items of a message, in order. *)
Definition tool_name (c : ContentItem) : option string :=
  if String.eqb (item_type c) "tool_use" then
    match item_name c with
    | Some name => if truthy name then Some name else None
    | None => None
    end
  else None.

Definition tool_names (m : ClaudeStreamMessage) : list string :=
  match msg_content m with
  | ContentArray items => omap tool_name items
  | _ => []
  end.

(** Whether the shape of a message gives [extractMessageInfo] a text: an
    assistant message with a non-empty string content or with a ['text']
    item of non-empty text; a user message whose first ['text'] item has
    a non-empty text. *)
Definition has_extractable_text (m : ClaudeStreamMessage) : bool :=
  if String.eqb (msg_type m) "assistant" then
    match msg_content m with
    | ContentUndefined => false
    | ContentString s => truthy s
    | ContentArray items => some_text items
    end
  else if String.eqb (msg_type m) "user" then
    match msg_content m with
    | ContentArray items =>
        match List.find is_text_item items with
        | Some c => truthy (text_value (item_text c))
        | None => false
        end
    | _ => false
    end
  else false.

Fixpoint all_whitespace (s : string) : bool :=
  match s with
  | EmptyString => true
  | String c s' => is_whitespace c && all_whitespace s'
  end.

Definition is_fork_request (r : Request) : bool :=
  match r with
  | ForkCheckpoint _ _ _ => true
  | _ => false
  end.

(** The requests sent between the worlds [w] and [w']. *)
Definition requests_since {api} (w w' : World api) : list Request :=
  drop (length (requests w)) (requests w').

(** The claim made for the preview of an enhanced checkpoint: at most
    150 characters. *)
Definition messageContent_within_150 (api : Api) (props : Props)
    (b : Backend api) (sortedCheckpoints : list TitorCheckpointInfo)
    (index : nat) (checkpoint : TitorCheckpointInfo) : Prop :=
  ∀ p, messageContent
         (enhanced (enhance api props b sortedCheckpoints index checkpoint))
       = Some p →
       (String.length p ≤ 150)%nat.

(** *** Sample backends, conversations and worlds *)

Definition cp (id : string) (index count : Z) : TitorCheckpointInfo :=
  {| checkpointId := id; messageIndex := index; timestamp := "";
     fileCount := count |}.

(** A backend that lists [listed], answers the diff requests found in
    [diffs], rejects the others, and forks to ["forked-1"]. *)
Definition table_api (listed : list TitorCheckpointInfo)
    (diffs : list (string * string * DiffResponse)) : Api :=
  {| Backend := unit;
     titorListCheckpoints := λ _ _, Some listed;
     titorListAllCheckpoints := λ _ _, Some listed;
     titorDiffCheckpoints := λ _ _ fromId toId,
       snd <$> List.find (λ d, String.eqb d.1.1 fromId
                               && String.eqb d.1.2 toId) diffs;
     titorForkCheckpoint := λ b _ _ _, (b, Some "forked-1") |}.

Definition props_with (msgs : list ClaudeStreamMessage) : Props :=
  {| sessionId := "s1"; projectPath := "/p"; currentMessageIndex := 0;
     messages := msgs; onCheckpointRestore := true;
     onForkCheckpoint := true; showAllSessions := false |}.

Definition opened (api : Api) (b : Backend api)
    (selected : option string) (description : string) : World api :=
  {| ui := {| checkpoints := []; isLoading := false; error := None;
              isOpen := true; selectedCheckpoint := selected;
              showForkDialog := false; forkMessage := description;
              isRestoring := false |};
     backend := b; requests := []; console := []; callbacks := [] |}.

Definition adds (paths : list string) : DiffResponse :=
  {| addedFiles := FileString <$> paths; modifiedFiles := [];
     deletedFiles := [] |}.

(** The three checkpoints of the spec's example: the step to [c1] adds
    [a], the step to [c2] adds [b] and deletes [a]. *)
Definition three_steps : Api :=
  table_api [cp "c0" 0 5; cp "c1" 1 6; cp "c2" 2 6]
    [("c0", "c1", adds ["a"]);
     ("c1", "c2", {| addedFiles := [FileString "b"]; modifiedFiles := [];
                     deletedFiles := [FileString "a"] |})].

(** Two checkpoints at the same message index, as the listing of all
    sessions of a project can return them. *)
Definition same_index : Api :=
  table_api [cp "x" 1 5; cp "y" 1 5] [("x", "y", adds ["f"])].

(** Three checkpoints; the diff of the middle one is rejected. *)
Definition middle_fails : Api :=
  table_api [cp "c0" 0 5; cp "c1" 1 6; cp "c2" 2 6]
    [("c1", "c2", adds ["b"])].

Definition single_checkpoint : Api := table_api [cp "c0" 0 5] [].

Definition long_text : string :=
  string_of_list_ascii (List.repeat "a"%char 151).

Definition long_message : ClaudeStreamMessage :=
  {| msg_type := "assistant"; msg_content := ContentString long_text |}.


End Timeline.

(** ** The rest of the session registry and its callers:
       [getActiveSessions] of [services/sessionStorage.ts], the keep-alive
       of [contexts/SessionContext.tsx] and [formatTimeSince] of the list
       of active sessions *)

Module SessionRegistry.
Import SessionStorage.

Definition Object_values (sessions : gmap string StoredSession)
    : list StoredSession :=
  (map_to_list sessions).*2.

(** [values.filter(s => Date.now() - s.timestamp < SESSION_EXPIRY_MS)]:
    the callback reads the clock once for each session. *)
Fixpoint filter_live (values : list StoredSession) : M (list StoredSession) :=
  match values with
  | [] => ret []
  | s :: rest =>
      let* now := Date_now in
      let* kept := filter_live rest in
      ret (if now - timestamp s <? SESSION_EXPIRY_MS then s :: kept else kept)
  end.

(** The sessions come in the order of the keys of the map, which need not
    be the insertion order of the object; the properties of this function
    speak of membership only. *)
Definition getActiveSessions : M (list StoredSession) :=
  let* sessions := getAllSessions in
  filter_live (Object_values sessions).

(** The [activeSession] of [SessionProvider]. *)
Record ActiveSession := {
  active_sessionId : string;
  active_projectPath : string;
  isActive : bool;
  hasUnsavedChanges : bool;
}.

(** The callback of the [setInterval] of [SessionProvider], which the
    effect installs while [activeSession.isActive]. *)
Definition keep_alive (activeSession : ActiveSession) : M unit :=
  let* sessions := getAllSessions in
  match sessions !! active_sessionId activeSession with
  | Some stored =>
      saveSession (active_sessionId activeSession)
        (active_projectPath activeSession) (messages stored)
  | None => ret tt
  end.

(** What [resumeSession] hands to [window.dispatchEvent] as the detail of
    the ['claude-session-selected'] event. *)
Record SessionSelected := {
  selected_id : string;
  selected_project_id : string;
  selected_project_path : string;
}.

(** [resumeSession]; the result is the event it dispatches, if any. *)
Definition resumeSession (sessionId : string) : M (option SessionSelected) :=
  let* session := getSession sessionId in
  ret (match session with
       | Some session =>
           Some {| selected_id := SessionStorage.sessionId session;
                   selected_project_id := projectPath session;
                   selected_project_path := projectPath session |}
       | None => None
       end).

(** [formatTimeSince] of the list of active sessions.  [Math.floor] of a
    quotient of integers is the floor division, [%] is the remainder that
    takes the sign of the dividend, and a template prints an integer in
    decimal. *)
Definition formatTimeSince (timestamp : Z) : M string :=
  let* now := Date_now in
  let diff := now - timestamp in
  let minutes := diff / (1000 * 60) in
  let hours := minutes / 60 in
  ret (if hours >? 0
       then pretty hours +:+ "h " +:+ pretty (Z.rem minutes 60) +:+ "m ago"
       else pretty minutes +:+ "m ago").

(** A store that does not accept writes, holding one stale session. *)
Definition read_only_world : World :=
  {| localStorage := Some (Json {[ "a" := session_a 0 ]}); writable := false;
     clock := 5; ticks := []; console := [] |}.

Definition corrupt_world : World :=
  {| localStorage := Some Malformed; writable := true; clock := 5;
     ticks := []; console := [] |}.

(** One stale session, read one millisecond after expiry by a clock that
    moves on by 3 and then by 4 milliseconds between its readings. *)
Definition ticking_world : World :=
  {| localStorage := Some (Json {[ "a" := session_a 0 ]}); writable := true;
     clock := SESSION_EXPIRY_MS + 1; ticks := [3%N; 4%N]; console := [] |}.

End SessionRegistry.

(** ** The rest of [components/TimelineNavigator.tsx]: creating and
       verifying a checkpoint, and what the list shows for the current
       message *)

Module TimelineView.
Import Timeline.

(** Modelled from the spec: the two operations of the checkpoint API
    ([../lib/api], not among the sources) that the functions below call,
    as the spec's section on external interfaces gives them.  [None] is a
    rejected promise; creating a checkpoint changes the backend. *)
Record ApiMore (api : Api) := {
  titorCheckpointMessage :
    Backend api → string → Z → string → Backend api * option unit;
  titorVerifyCheckpoint : Backend api → string → string → option bool;
}.
Arguments titorCheckpointMessage {api} _ _ _ _ _.
Arguments titorVerifyCheckpoint {api} _ _ _ _.

Inductive Call :=
| CheckpointMessage (sessionId : string) (messageIndex : Z) (label : string)
| VerifyCheckpoint (sessionId checkpointId : string).

(** The world of the component with the [isCreatingCheckpoint] cell, the
    pending [setTimeout] callbacks (delay in milliseconds and the
    checkpoint whose mark they clear) and the calls to the two
    operations above. *)
Record View (api : Api) := {
  world : World api;
  isCreatingCheckpoint : bool;
  timers : list (Z * string);
  calls : list Call;
}.
Arguments world {api} v.
Arguments isCreatingCheckpoint {api} v.
Arguments timers {api} v.
Arguments calls {api} v.

(** [{ ...cp, verified: v }] *)
Definition with_verified (v : option bool) (cp : CheckpointWithUIState)
    : CheckpointWithUIState :=
  {| info := info cp; verified := v; parentId := parentId cp;
     messageContent := messageContent cp; toolsUsed := toolsUsed cp;
     filesChanged := filesChanged cp;
     detailedFileChanges := detailedFileChanges cp |}.

(** [prev.map(cp => cp.checkpointId === checkpointId
                    ? { ...cp, verified: v } : cp)] *)
Definition set_verified (checkpointId : string) (v : option bool)
    (prev : list CheckpointWithUIState) : list CheckpointWithUIState :=
  (λ cp, if String.eqb (Timeline.checkpointId (info cp)) checkpointId
         then with_verified v cp else cp) <$> prev.

Section Actions.
Context (api : Api) (more : ApiMore api) (props : Props).

Definition on_world (f : World api → World api) (v : View api) : View api :=
  {| world := f (world v); isCreatingCheckpoint := isCreatingCheckpoint v;
     timers := timers v; calls := calls v |}.

Definition setIsCreatingCheckpoint (b : bool) (v : View api) : View api :=
  {| world := world v; isCreatingCheckpoint := b; timers := timers v;
     calls := calls v |}.

Definition call (c : Call) (v : View api) : View api :=
  {| world := world v; isCreatingCheckpoint := isCreatingCheckpoint v;
     timers := timers v; calls := calls v ++ [c] |}.

Definition setTimeout (delay : Z) (checkpointId : string) (v : View api)
    : View api :=
  {| world := world v; isCreatingCheckpoint := isCreatingCheckpoint v;
     timers := timers v ++ [(delay, checkpointId)]; calls := calls v |}.

Definition handleCreateCheckpoint (v : View api) : View api :=
  let v := setIsCreatingCheckpoint true v in
  let v := on_world (update api (setError None)) v in
  let message :=
    "Manual checkpoint at message "
    +:+ pretty (currentMessageIndex props + 1) in
  let v := call (CheckpointMessage (sessionId props)
                   (currentMessageIndex props) message) v in
  let '(b, response) :=
    titorCheckpointMessage more (backend (world v)) (sessionId props)
      (currentMessageIndex props) message in
  let v := on_world (set_backend api b) v in
  match response with
  | Some _ =>
      let v := on_world (loadCheckpoints api props) v in
      setIsCreatingCheckpoint false v
  | None =>
      let v := on_world (log api [Error "Failed to create checkpoint:"]) v in
      let v := on_world
                 (update api (setError (Some "Failed to create checkpoint")))
                 v in
      setIsCreatingCheckpoint false v
  end.

(** The checkpoints that the handler searches are those of the render
    that created it, here the ones of the world it starts from. *)
Definition handleVerifyCheckpoint (checkpointId : string) (v : View api)
    : View api :=
  let v := call (VerifyCheckpoint (sessionId props) checkpointId) v in
  match titorVerifyCheckpoint more (backend (world v)) (sessionId props)
          checkpointId with
  | Some isValid =>
      if isValid then
        match List.find
                (λ cp, String.eqb (Timeline.checkpointId (info cp))
                         checkpointId)
                (checkpoints (ui (world v))) with
        | Some _ =>
            let v :=
              on_world
                (λ w, update api
                        (setCheckpoints
                           (set_verified checkpointId (Some true)
                              (checkpoints (ui w)))) w) v in
            setTimeout 3000 checkpointId v
        | None => v
        end
      else
        on_world (update api (setError (Some "Checkpoint verification failed")))
          v
  | None =>
      let v := on_world (log api [Error "Failed to verify checkpoint:"]) v in
      on_world (update api (setError (Some "Failed to verify checkpoint"))) v
  end.

(** The callback that [handleVerifyCheckpoint] hands to [setTimeout]. *)
Definition clear_verified (checkpointId : string) (v : View api) : View api :=
  on_world
    (λ w, update api
            (setCheckpoints
               (set_verified checkpointId None (checkpoints (ui w)))) w) v.

End Actions.

(** The diff request of the step between two neighbours of the sorted
    list, as the callback of [loadCheckpoints] sends it. *)
Definition step_request (props : Props)
    (step : TitorCheckpointInfo * TitorCheckpointInfo) : Request :=
  DiffCheckpoints (sessionId props) (checkpointId step.1) (checkpointId step.2).

(** [isActive] of the render of the list, for the checkpoint at [index]:
    [checkpoint.messageIndex <= currentMessageIndex &&
     (index === checkpoints.length - 1 ||
      checkpoints[index + 1].messageIndex > currentMessageIndex)].  The
    second disjunct is only evaluated below the last index, where the next
    checkpoint exists. *)
Definition isActive (checkpoints : list CheckpointWithUIState)
    (currentMessageIndex : Z) (index : nat) (checkpoint : CheckpointWithUIState)
    : bool :=
  (messageIndex (info checkpoint) <=? currentMessageIndex)
  && ((Z.of_nat index =? Z.of_nat (length checkpoints) - 1)
      || match checkpoints !! S index with
         | Some next => messageIndex (info next) >? currentMessageIndex
         | None => false
         end).

(** The checkpoint that the effect scrolls to when the dialog opens:
    [checkpoints.find(cp => cp.messageIndex <= currentMessageIndex)]. *)
Definition scroll_target (checkpoints : list CheckpointWithUIState)
    (currentMessageIndex : Z) : option CheckpointWithUIState :=
  List.find (λ cp, messageIndex (info cp) <=? currentMessageIndex) checkpoints.

(** The last non-empty text among the ['text'] items of a content. *)
Definition last_text (items : list ContentItem) : option string :=
  last (List.filter truthy (item_texts items)).

(** The positions of the active checkpoints of a list. *)
Definition active_positions (checkpoints : list CheckpointWithUIState)
    (currentMessageIndex : Z) : list nat :=
  List.filter
    (λ i, match checkpoints !! i with
          | Some cp => isActive checkpoints currentMessageIndex i cp
          | None => false
          end)
    (seq 0 (length checkpoints)).

(** A backend over [three_steps] that verifies ["c1"] only and accepts
    every new checkpoint. *)
Definition three_steps_more : ApiMore three_steps :=
  {| titorCheckpointMessage := λ b _ _ _, (b, Some tt);
     titorVerifyCheckpoint := λ _ _ id, Some (String.eqb id "c1") |}.

Definition rejecting_more : ApiMore three_steps :=
  {| titorCheckpointMessage := λ b _ _ _, (b, None);
     titorVerifyCheckpoint := λ _ _ _, None |}.

Definition fresh_view (api : Api) (w : World api) : View api :=
  {| world := w; isCreatingCheckpoint := false; timers := []; calls := [] |}.

(** The view after a load of the three checkpoints. *)
Definition loaded_view : View three_steps :=
  fresh_view three_steps
    (loadCheckpoints three_steps (props_with [])
       (opened three_steps tt None "")).

End TimelineView.

(** ** [extractMessageInfo] of [components/TimelineNavigator.tsx] on the
       values that it can meet at run time: a [messages] that is null, an
       array with null or undefined elements, content arrays with null or
       undefined items.  Reading a property of null or undefined throws a
       [TypeError] *)

Module ExtractMessageInfo.
Import Timeline.

(** How a call ends. *)
Inductive Completion (A : Type) :=
| Normal (a : A)
| TypeError.
Arguments Normal {A} a.
Arguments TypeError {A}.

(** [message.message?.content]; [None] in the array is an element that
    is null or undefined. *)
Inductive RuntimeContent :=
| NoContent
| StringContent (s : string)
| ArrayContent (items : list (option ContentItem)).

Record RuntimeMessage := {
  rt_type : string;
  rt_content : RuntimeContent;
}.

Definition runtime_content_truthy (c : RuntimeContent) : bool :=
  match c with
  | NoContent => false
  | StringContent s => truthy s
  | ArrayContent _ => true
  end.

(** [a[i]]: [undefined] for an index that is not one of the array. *)
Definition element {A} (a : list A) (i : Z) : option A :=
  if i <? 0 then None else a !! Z.to_nat i.

(** [for (const item of message.message.content)]: [item.type] throws
    on an item that is null or undefined. *)
Fixpoint assistant_items (acc : string * list string)
    (items : list (option ContentItem)) : Completion (string * list string) :=
  match items with
  | [] => Normal acc
  | None :: _ => TypeError
  | Some item :: rest => assistant_items (assistant_item acc item) rest
  end.

(** [content.find((c) => c.type === 'text')]: the callback throws on an
    element that is null or undefined, and [find] stops at the first
    match. *)
Fixpoint find_text_item (items : list (option ContentItem))
    : Completion (option ContentItem) :=
  match items with
  | [] => Normal None
  | None :: _ => TypeError
  | Some c :: rest =>
      if String.eqb (item_type c) "text" then Normal (Some c)
      else find_text_item rest
  end.

(** The user branch after the [find]. *)
Definition user_text (textContent : option ContentItem) : string :=
  match textContent with
  | Some textContent =>
      match item_text textContent with
      | TextUndefined => ""
      | TextString s => if truthy s then truncate150 s else ""
      | TextObject (Some s) => truncate150 s
      | TextObject None => truncate150 ""
      end
  | None => ""
  end.

(** [messages] is [None] when it is null or undefined.  After the guard
    [message] is [messages[messageIndex]], and [message.type] throws when
    that is null or undefined. *)
Definition extractMessageInfo
    (messages : option (list (option RuntimeMessage))) (messageIndex : Z)
    : Completion MessageInfo :=
  match messages with
  | None => Normal {| content := ""; tools := [] |}
  | Some messages =>
      if (messageIndex <? 0) || (Z.of_nat (length messages) <=? messageIndex)
      then Normal {| content := ""; tools := [] |}
      else
        match element messages messageIndex with
        | None | Some None => TypeError
        | Some (Some message) =>
            let extracted : Completion (string * list string) :=
              if String.eqb (rt_type message) "assistant"
                 && runtime_content_truthy (rt_content message)
              then
                match rt_content message with
                | ArrayContent items => assistant_items ("", []) items
                | StringContent contentStr =>
                    Normal (truncate150 contentStr, [])
                | NoContent => Normal ("", [])
                end
              else if String.eqb (rt_type message) "user"
                      && runtime_content_truthy (rt_content message)
              then
                match rt_content message with
                | ArrayContent items =>
                    match find_text_item items with
                    | Normal textContent => Normal (user_text textContent, [])
                    | TypeError => TypeError
                    end
                | _ => Normal ("", [])
                end
              else Normal ("", []) in
            match extracted with
            | Normal (content, tools) =>
                Normal {| content := if truthy content then content
                                     else "No content";
                          tools := tools |}
            | TypeError => TypeError
            end
        end
  end.

(** *** What the properties speak of *)











End ExtractMessageInfo.

(* ===================================================================== *)
(** * Part II: properties *)
(* ===================================================================== *)

Module SessionStorageProofs.
Import SessionStorage.

(** ** The pruning loop *)

Lemma drop_if_expired_lookup now (acc : gmap string StoredSession) id k :
  drop_if_expired now acc id !! k =
    match acc !! k with
    | Some s =>
        if bool_decide (id = k) && (now - timestamp s >? SESSION_EXPIRY_MS)
        then None else Some s
    | None => None
    end.
Proof.
  unfold drop_if_expired.
  destruct (decide (id = k)) as [->|Hne].
  - rewrite bool_decide_eq_true_2 by done. simpl.
    destruct (acc !! k) as [s|] eqn:Hk; [|by rewrite Hk].
    destruct (now - timestamp s >? SESSION_EXPIRY_MS).
    + by rewrite lookup_delete_eq.
    + by rewrite Hk.
  - rewrite bool_decide_eq_false_2 by done. simpl.
    destruct (acc !! id) as [s|]; [|by destruct (acc !! k)].
    destruct (now - timestamp s >? SESSION_EXPIRY_MS);
      [rewrite lookup_delete_ne by done|]; by destruct (acc !! k).
Qed.

Lemma prune_loop_lookup now ids : ∀ (acc : gmap string StoredSession) k,
  foldl (drop_if_expired now) acc ids !! k =
    match acc !! k with
    | Some s =>
        if bool_decide (k ∈ ids) && (now - timestamp s >? SESSION_EXPIRY_MS)
        then None else Some s
    | None => None
    end.
Proof.
  induction ids as [|id ids IH]; intros acc k; simpl.
  - by destruct (acc !! k).
  - rewrite IH, drop_if_expired_lookup.
    destruct (acc !! k) as [s|]; [|done].
    destruct (now - timestamp s >? SESSION_EXPIRY_MS) eqn:Hexp.
    2: { rewrite !andb_false_r. by rewrite Hexp, andb_false_r. }
    rewrite !andb_true_r.
    destruct (decide (id = k)) as [->|Hne].
    + rewrite !bool_decide_eq_true_2; [done|left|done].
    + rewrite (bool_decide_eq_false_2 (id = k)) by done.
      rewrite Hexp, andb_true_r.
      apply (f_equal (λ b : bool, if b then None else Some s)).
      apply bool_decide_ext. rewrite elem_of_cons.
      split; [by right|]. intros [Heq|Hin]; [by subst|exact Hin].
Qed.

Lemma Object_keys_spec (m : gmap string StoredSession) k :
  k ∈ Object_keys m ↔ is_Some (m !! k).
Proof.
  unfold Object_keys. rewrite list_elem_of_fmap. split.
  - intros [[k' s] [-> Hin]]. apply elem_of_map_to_list in Hin. by exists s.
  - intros [s Hs]. exists (k, s). split; [done|].
    by apply elem_of_map_to_list.
Qed.

Lemma live_entries_lookup now (m : gmap string StoredSession) k :
  live_entries now m !! k =
    match m !! k with
    | Some s => if now - timestamp s >? SESSION_EXPIRY_MS then None else Some s
    | None => None
    end.
Proof.
  unfold live_entries. rewrite prune_loop_lookup.
  destruct (m !! k) as [s|] eqn:Hk; [|done].
  rewrite bool_decide_eq_true_2; [done|].
  apply Object_keys_spec. by exists s.
Qed.

Lemma live_entries_Some now (m : gmap string StoredSession) k s :
  live_entries now m !! k = Some s ↔
  m !! k = Some s ∧ now - timestamp s ≤ SESSION_EXPIRY_MS.
Proof.
  rewrite live_entries_lookup. destruct (m !! k) as [s'|].
  - destruct (Z.gtb_spec (now - timestamp s') SESSION_EXPIRY_MS) as [Hold|Hlive].
    + split; [done|]. intros [[= ->] Hage]. lia.
    + split; [intros [= ->]; split; [done|lia]|by intros [? _]].
  - split; [done|by intros [? _]].
Qed.

Lemma live_entries_empty now : live_entries now ∅ = ∅.
Proof.
  apply map_eq; intros k. by rewrite live_entries_lookup, lookup_empty.
Qed.

(** ** [getAllSessions] step by step *)

Lemma getAllSessions_run w :
  ∃ w', getAllSessions w = (Returned (live_entries (clock w) (persisted w)), w')
        ∧ localStorage w' = localStorage w
        ∧ writable w' = writable w
        ∧ clock w ≤ clock w'.
Proof.
  unfold getAllSessions, try_catch, bind, getItem, persisted.
  destruct (localStorage w) as [[|m]|] eqn:Hls; simpl.
  - rewrite live_entries_empty. eexists; split; [reflexivity|].
    simpl. repeat split; [done|lia].
  - eexists; split; [reflexivity|].
    destruct (ticks w); simpl; repeat split; try done; lia.
  - rewrite live_entries_empty. eexists; split; [reflexivity|].
    repeat split; [done|lia].
Qed.

Lemma Date_now_run w :
  (Date_now w).1 = Returned (clock w)
  ∧ localStorage (Date_now w).2 = localStorage w
  ∧ writable (Date_now w).2 = writable w
  ∧ clock w ≤ clock (Date_now w).2.
Proof.
  unfold Date_now. destruct (ticks w); simpl; repeat split; lia.
Qed.

Lemma saveSession_run w id path msgs :
  writable w = true →
  ∃ now, clock w ≤ now ∧
    localStorage (saveSession id path msgs w).2 =
      Some (Json (<[id := {| sessionId := id; projectPath := path;
                             messages := msgs; timestamp := now |}]>
                    (live_entries (clock w) (persisted w)))).
Proof.
  intros Hw. destruct (getAllSessions_run w) as (w1 & Hrun & _ & Hw1 & Hclk).
  destruct (Date_now_run w1) as (Hret & _ & Hw2 & _).
  exists (clock w1). split; [done|].
  unfold saveSession, try_catch, bind. rewrite Hrun.
  destruct (Date_now w1) as [r w2]. simpl in *. subst r.
  unfold setItem. by rewrite Hw2, Hw1, Hw.
Qed.

Lemma removeSession_run w id :
  writable w = true →
  localStorage (removeSession id w).2 =
    Some (Json (delete id (live_entries (clock w) (persisted w)))).
Proof.
  intros Hw. destruct (getAllSessions_run w) as (w1 & Hrun & _ & Hw1 & _).
  unfold removeSession, try_catch, bind. rewrite Hrun.
  unfold setItem. by rewrite Hw1, Hw.
Qed.

(** ** C1 *)

(** C1, as stated, fails: reading a store that holds a session one
    millisecond past its 24 hours leaves that session in the store. *)
Lemma getAllSessions_leaves_stale_entry_in_store :
  ¬ getAllSessions_compacts stale_world.
Proof.
  intros [_ Hstore].
  apply (Hstore "a" (session_a 0)); [reflexivity|].
  unfold expired_at. vm_compute. reflexivity.
Qed.

(** C1 (amended): for every world, [getAllSessions] returns a mapping,
    which holds exactly the stored entries whose age does not exceed the
    24 hours, so no entry older than that; the call writes nothing: the
    persisted blob is what it was before the call. *)
Theorem getAllSessions_prunes_result_only (w : World) :
  ∃ m, (getAllSessions w).1 = Returned m
     ∧ (∀ id s, m !! id = Some s ↔
                persisted w !! id = Some s ∧ ¬ expired_at (clock w) s)
     ∧ localStorage (getAllSessions w).2 = localStorage w.
Proof.
  destruct (getAllSessions_run w) as (w1 & Hrun & Hls & _ & _).
  exists (live_entries (clock w) (persisted w)). rewrite Hrun. simpl.
  split; [done|]. split; [|done].
  intros id s. rewrite live_entries_Some. unfold expired_at.
  split; intros [Hin Hage]; (split; [exact Hin|lia]).
Qed.

(** ** C4 *)

(** C4, as stated, fails twice: at an age of exactly 24 hours the session
    is still returned, and a session past its 24 hours, though reported
    absent, stays in the store. *)
Lemma getSession_boundary_and_stale_store :
  ¬ getSession_expires boundary_world "a" (session_a 0)
  ∧ ¬ getSession_expires stale_world "a" (session_a 0).
Proof.
  split; intros [Hold _].
  - destruct Hold as [Hnone _]; [vm_compute; discriminate|].
    vm_compute in Hnone. discriminate.
  - destruct Hold as [_ Hgone]; [vm_compute; discriminate|].
    vm_compute in Hgone. discriminate.
Qed.

(** C4 (amended): for a session [s] stored under [id], once
    [now - timestamp s] exceeds the 24 hours [getSession id] returns
    absent; when the age does not exceed the 24 hours at the two clock
    readings of the call, it returns [s] unchanged and leaves the store
    as it was. *)
Theorem getSession_ttl (w : World) (id : string) (s : StoredSession) :
  persisted w !! id = Some s →
  (expired_at (clock w) s → (getSession id w).1 = Returned None)
  ∧ (next_clock w - timestamp s ≤ SESSION_EXPIRY_MS →
       (getSession id w).1 = Returned (Some s)
       ∧ localStorage (getSession id w).2 = localStorage w).
Proof.
  intros Hs. unfold getSession, try_catch, bind.
  destruct (getAllSessions_run w) as (w1 & Hrun & Hls & _ & _).
  rewrite Hrun. split.
  - intros Hexp. unfold expired_at in Hexp.
    assert (live_entries (clock w) (persisted w) !! id = None) as ->; [|done].
    rewrite live_entries_lookup, Hs.
    destruct (Z.gtb_spec (clock w - timestamp s) SESSION_EXPIRY_MS); [done|lia].
  - intros Hlive.
    assert (clock w1 = next_clock w) as Hw1.
    { revert Hrun Hs. unfold getAllSessions, try_catch, bind, getItem, persisted.
      destruct (localStorage w) as [[|m]|]; simpl;
        rewrite ?lookup_empty; try done.
      intros Heq _. by simplify_eq. }
    destruct (Date_now_run w) as (_ & _ & _ & Hclk).
    fold (next_clock w) in Hclk.
    assert (live_entries (clock w) (persisted w) !! id = Some s) as ->.
    { apply live_entries_Some. split; [done|lia]. }
    destruct (Date_now_run w1) as (Hret & Hls2 & _ & _).
    destruct (Date_now w1) as [r w2]. cbn [fst snd] in Hret, Hls2. subst r.
    rewrite Hw1.
    destruct (Z.gtb_spec (next_clock w - timestamp s) SESSION_EXPIRY_MS);
      [lia|].
    unfold ret. cbn [fst snd]. split; [done|congruence].
Qed.

Lemma getSession_ttl_witness :
  (getSession "a" stale_world).1 = Returned None
  ∧ (getSession "a" boundary_world).1 = Returned (Some (session_a 0)).
Proof.
  split.
  - apply (getSession_ttl stale_world "a" (session_a 0)); [reflexivity|].
    unfold expired_at. vm_compute. reflexivity.
  - apply (getSession_ttl boundary_world "a" (session_a 0)); [reflexivity|].
    vm_compute. discriminate.
Defined.

(** ** C9 *)

(** C9: when the write succeeds, the blob that [saveSession] or
    [removeSession] leaves in the store has no entry, under any id, whose
    age exceeded the 24 hours at the time of the call. *)
Theorem write_paths_compact_store
    (w : World) (id path : string) (msgs : list string) :
  writable w = true →
  ∃ saved removed,
    localStorage (saveSession id path msgs w).2 = Some (Json saved)
    ∧ localStorage (removeSession id w).2 = Some (Json removed)
    ∧ (∀ k s, saved !! k = Some s → ¬ expired_at (clock w) s)
    ∧ (∀ k s, removed !! k = Some s → ¬ expired_at (clock w) s).
Proof.
  intros Hw.
  destruct (saveSession_run w id path msgs Hw) as (now & Hnow & Hsave).
  eexists _, _. split; [exact Hsave|]. split; [by apply removeSession_run|].
  unfold expired_at. split; intros k s.
  - destruct (decide (id = k)) as [->|Hne].
    + rewrite lookup_insert_eq. intros [= <-]. simpl.
      unfold SESSION_EXPIRY_MS. lia.
    + rewrite lookup_insert_ne by done.
      intros H. apply live_entries_Some in H as [_ ?]. lia.
  - destruct (decide (id = k)) as [->|Hne].
    + by rewrite lookup_delete_eq.
    + rewrite lookup_delete_ne by done.
      intros H. apply live_entries_Some in H as [_ ?]. lia.
Qed.

Lemma write_paths_compact_store_witness :
  ∃ saved removed,
    localStorage (saveSession "b" "/q" [] mixed_world).2 = Some (Json saved)
    ∧ localStorage (removeSession "b" mixed_world).2 = Some (Json removed)
    ∧ (∀ k s, saved !! k = Some s → ¬ expired_at (clock mixed_world) s)
    ∧ (∀ k s, removed !! k = Some s → ¬ expired_at (clock mixed_world) s).
Proof.
  apply (write_paths_compact_store mixed_world "b" "/q" []). reflexivity.
Defined.

End SessionStorageProofs.

Module TimelineProofs.
Import Timeline.

(** ** Strings *)

Lemma append_cons (c : ascii) (s1 s2 : string) :
  String c s1 +:+ s2 = String c (s1 +:+ s2).
Proof. reflexivity. Qed.

Lemma length_append (s1 s2 : string) :
  String.length (s1 +:+ s2) = (String.length s1 + String.length s2)%nat.
Proof.
  induction s1 as [|c s1 IH]; [done|].
  rewrite append_cons. simpl. by rewrite IH.
Qed.

Lemma length_substring_0 (n : nat) : ∀ s : string,
  String.length (substring 0 n s) = (n `min` String.length s)%nat.
Proof.
  induction n as [|n IH]; intros [|c s]; simpl; try done. by rewrite IH.
Qed.

Lemma substring_0_all (n : nat) : ∀ s : string,
  (String.length s ≤ n)%nat → substring 0 n s = s.
Proof.
  induction n as [|n IH]; intros [|c s]; simpl; intros Hlen; try done.
  - lia.
  - rewrite IH; [done|lia].
Qed.

Lemma append_empty_r (s : string) : s +:+ "" = s.
Proof. induction s as [|c s IH]; [done|]. by rewrite append_cons, IH. Qed.

Lemma truthy_false (s : string) : truthy s = false ↔ s = "".
Proof. by destruct s. Qed.

Lemma truncate150_short (t : string) :
  (String.length t ≤ 150)%nat → truncate150 t = t.
Proof.
  intros Hlen. unfold truncate150.
  destruct (Nat.ltb_spec 150 (String.length t)); [lia|]. cbv iota.
  by rewrite append_empty_r, substring_0_all.
Qed.

Lemma truncate150_long (t : string) :
  (150 < String.length t)%nat →
  truncate150 t = substring 0 150 t +:+ "..."
  ∧ String.length (truncate150 t) = 153%nat.
Proof.
  intros Hlen. unfold truncate150.
  destruct (Nat.ltb_spec 150 (String.length t)); [|lia]. cbv iota.
  split; [done|]. rewrite length_append, length_substring_0.
  change (String.length "...") with 3%nat. lia.
Qed.

Lemma truncate150_length (t : string) :
  (String.length (truncate150 t) ≤ 153)%nat.
Proof.
  destruct (Nat.le_gt_cases (String.length t) 150) as [Hle|Hgt].
  - rewrite truncate150_short by done. lia.
  - apply truncate150_long in Hgt as [_ ->]. lia.
Qed.

Lemma truncate150_empty : truncate150 "" = "".
Proof. reflexivity. Qed.

(** ** [extractMessageInfo] *)

Lemma text_item_no_tool (c : ContentItem) :
  is_text_item c = true → tool_name c = None.
Proof.
  unfold is_text_item, tool_name. intros Htext.
  apply String.eqb_eq in Htext. by rewrite Htext.
Qed.

(** One iteration of the assistant loop. *)
Lemma assistant_item_spec (c0 : string) (t0 : list string) (c : ContentItem) :
  ∃ c1, assistant_item (c0, t0) c = (c1, t0 ++ option_list (tool_name c))
      ∧ (c1 = c0 ∨ is_text_item c = true
                   ∧ c1 = truncate150 (text_value (item_text c)))
      ∧ (is_text_item c && truthy (text_value (item_text c)) = false →
         c1 = c0).
Proof.
  unfold assistant_item. fold (is_text_item c).
  destruct (is_text_item c) eqn:Htext.
  - rewrite (text_item_no_tool c Htext), app_nil_r.
    destruct (truthy (text_value (item_text c))) eqn:Htruthy; simpl.
    + destruct (String.length c0 <? 150)%nat; eexists;
        (split; [done|]); split; auto; done.
    + eexists; split; [done|]. auto.
  - unfold tool_name.
    destruct (String.eqb (item_type c) "tool_use");
      [destruct (item_name c) as [name|]; [destruct (truthy name)|]|];
      simpl; rewrite ?app_nil_r; eexists; (split; [done|]); auto.
Qed.

(** The loop of the assistant branch: the tools are the tool names in
    order; the content is the one it started with or the preview of one
    of the texts, and stays what it was when no text item has a text. *)
Lemma assistant_loop (items : list ContentItem) : ∀ c0 t0,
  ∃ c1, foldl assistant_item (c0, t0) items = (c1, t0 ++ omap tool_name items)
      ∧ (c1 = c0 ∨ ∃ t, t ∈ item_texts items ∧ c1 = truncate150 t)
      ∧ (some_text items = false → c1 = c0).
Proof.
  induction items as [|c items IH]; intros c0 t0.
  - exists c0. simpl. rewrite app_nil_r. auto.
  - destruct (assistant_item_spec c0 t0 c) as (c1 & Hstep & Hc1 & Hkeep).
    destruct (IH c1 (t0 ++ option_list (tool_name c)))
      as (c2 & Hloop & Hc2 & Hkeep2).
    exists c2. split; [|split].
    + change (foldl assistant_item (c0, t0) (c :: items))
        with (foldl assistant_item (assistant_item (c0, t0) c) items).
      rewrite Hstep, Hloop, <- app_assoc. f_equal. f_equal.
      simpl. by destruct (tool_name c).
    + unfold item_texts in *. simpl.
      destruct Hc2 as [->|(t & Hin & ->)].
      * destruct Hc1 as [->|[Htext ->]]; [by left|].
        right. rewrite Htext. eexists; split; [left|done].
      * right. exists t. split; [|done].
        destruct (is_text_item c); [right|]; done.
    + unfold some_text in *. simpl. intros Hno.
      apply orb_false_iff in Hno as [Hc Hrest].
      rewrite Hkeep2, Hkeep; done.
Qed.

Lemma user_content_spec (items : list ContentItem) :
  (user_content items = ""
   ∨ ∃ t, t ∈ item_texts items ∧ user_content items = truncate150 t)
  ∧ (match List.find is_text_item items with
     | Some c => truthy (text_value (item_text c))
     | None => false
     end = false → user_content items = "").
Proof.
  unfold user_content. fold is_text_item.
  destruct (List.find is_text_item items) as [c|] eqn:Hfind; [|auto].
  apply find_some in Hfind as [Hin Htext].
  assert (text_value (item_text c) ∈ item_texts items) as Hmem.
  { unfold item_texts. apply list_elem_of_fmap. exists c. split; [done|].
    apply list_elem_of_In, filter_In. done. }
  destruct (item_text c) as [|s|[s|]]; simpl in *.
  - auto.
  - destruct s; simpl; [auto|]. split; [right; eauto|done].
  - split; [right; eauto|]. intros ->%truthy_false. done.
  - auto.
Qed.

Lemma truncate150_truthy (t : string) : truthy (truncate150 t) = truthy t.
Proof. by destruct t. Qed.

Lemma truthy_long (s : string) :
  (String.length s <? 150)%nat = false → truthy s = true.
Proof. by destruct s. Qed.

Lemma assistant_item_truthy (c0 : string) (t0 : list string) (c : ContentItem) :
  truthy (assistant_item (c0, t0) c).1
  = truthy c0 || (is_text_item c && truthy (text_value (item_text c))).
Proof.
  unfold assistant_item. fold (is_text_item c).
  destruct (is_text_item c).
  - destruct (truthy (text_value (item_text c))) eqn:Htext; simpl.
    + destruct (String.length c0 <? 150)%nat eqn:Hlen; simpl.
      * by rewrite truncate150_truthy, Htext, orb_true_r.
      * by rewrite (truthy_long c0 Hlen).
    + by rewrite orb_false_r.
  - simpl. rewrite orb_false_r.
    destruct (String.eqb (item_type c) "tool_use"); [|done].
    destruct (item_name c) as [name|]; [|done]. by destruct (truthy name).
Qed.

Lemma assistant_loop_truthy (items : list ContentItem) : ∀ c0 t0,
  truthy (foldl assistant_item (c0, t0) items).1
  = truthy c0 || some_text items.
Proof.
  induction items as [|c items IH]; intros c0 t0.
  - simpl. by rewrite orb_false_r.
  - change (foldl assistant_item (c0, t0) (c :: items))
      with (foldl assistant_item (assistant_item (c0, t0) c) items).
    destruct (assistant_item (c0, t0) c) as [c1 t1] eqn:Hstep.
    rewrite IH. change c1 with (c1, t1).1. rewrite <- Hstep.
    rewrite assistant_item_truthy. unfold some_text. simpl.
    by rewrite orb_assoc.
Qed.

Lemma user_content_truthy (items : list ContentItem) :
  truthy (user_content items)
  = match List.find is_text_item items with
    | Some c => truthy (text_value (item_text c))
    | None => false
    end.
Proof.
  unfold user_content. fold is_text_item.
  destruct (List.find is_text_item items) as [c|]; [|done].
  destruct (item_text c) as [|s|[s|]]; simpl; try done.
  - destruct (truthy s) eqn:Hs; [|done]. by rewrite truncate150_truthy.
  - by rewrite truncate150_truthy.
Qed.

(** The result of [extractMessageInfo] inside the array: the content [c]
    that the branches compute is empty or the preview of a text of the
    message, and it is not empty exactly when the message has an
    extractable text. *)
Lemma extractMessageInfo_in_range
    (msgs : list ClaudeStreamMessage) (i : Z) (m : ClaudeStreamMessage) :
  0 ≤ i → msgs !! Z.to_nat i = Some m →
  ∃ c, extractMessageInfo msgs i
       = {| content := if truthy c then c else "No content";
            tools := if String.eqb (msg_type m) "assistant"
                     then tool_names m else [] |}
     ∧ (c = "" ∨ ∃ t, t ∈ message_texts m ∧ c = truncate150 t)
     ∧ truthy c = has_extractable_text m.
Proof.
  intros Hi Hm. unfold extractMessageInfo.
  assert (Z.to_nat i < length msgs)%nat as Hlt by by eapply lookup_lt_Some.
  destruct (Z.ltb_spec i 0); [lia|].
  destruct (Z.leb_spec (Z.of_nat (length msgs)) i); [lia|]. simpl.
  rewrite Hm. unfold has_extractable_text, tool_names, message_texts.
  destruct (String.eqb (msg_type m) "assistant") eqn:Hassistant.
  - destruct (msg_content m) as [|s|items]; simpl.
    + exists "". rewrite andb_false_r. auto.
    + destruct (truthy s) eqn:Hs.
      * exists (truncate150 s). split; [done|].
        split; [|by rewrite truncate150_truthy].
        right. exists s. split; [left|done].
      * assert (String.eqb (msg_type m) "user" = false) as ->.
        { apply String.eqb_eq in Hassistant. by rewrite Hassistant. }
        exists "". auto.
    + destruct (assistant_loop items "" []) as (c & Hloop & Hc & _).
      pose proof (assistant_loop_truthy items "" []) as Htruthy.
      rewrite Hloop in *. exists c. split; [done|]. split; [|exact Htruthy].
      destruct Hc as [->|Hc]; auto.
  - simpl. destruct (String.eqb (msg_type m) "user").
    + destruct (msg_content m) as [|s|items]; simpl.
      * exists "". auto.
      * destruct (truthy s); exists ""; auto.
      * destruct (user_content_spec items) as [Hc _].
        exists (user_content items). split; [done|].
        split; [exact Hc|apply user_content_truthy].
    + exists "". simpl. auto.
Qed.

Lemma extractMessageInfo_out_of_range
    (msgs : list ClaudeStreamMessage) (i : Z) :
  i < 0 ∨ Z.of_nat (length msgs) ≤ i →
  extractMessageInfo msgs i = {| content := ""; tools := [] |}.
Proof.
  intros Hout. unfold extractMessageInfo.
  destruct (Z.ltb_spec i 0); [done|].
  destruct (Z.leb_spec (Z.of_nat (length msgs)) i); [done|lia].
Qed.

(** ** C7 *)

(** C7, as stated, fails: for a message of 151 characters the preview
    has 153. *)
Lemma messageContent_of_long_message_exceeds_150 :
  ¬ messageContent_within_150 single_checkpoint (props_with [long_message])
      tt [cp "c0" 0 5] 0 (cp "c0" 0 5).
Proof.
  intros Hclaim. specialize (Hclaim _ eq_refl).
  vm_compute in Hclaim. lia.
Qed.

(** C7 (amended): the [messageContent] of an enhanced checkpoint is the
    content that [extractMessageInfo] gives for the message at the
    checkpoint's [messageIndex]; it has at most 153 characters.  For a
    message with extractable text it is the preview of a text of that
    message (otherwise it is empty or ['No content']), where the preview
    of a text of at most 150 characters is the text, and that of a longer
    one is its first 150 characters followed by ['...']. *)
Theorem messageContent_is_preview (api : Api) (props : Props)
    (b : Backend api) (sortedCheckpoints : list TitorCheckpointInfo)
    (index : nat) (checkpoint : TitorCheckpointInfo) :
  let i := messageIndex checkpoint in
  let p := content (extractMessageInfo (messages props) i) in
  messageContent
    (enhanced (enhance api props b sortedCheckpoints index checkpoint))
  = Some p
  ∧ (String.length p ≤ 153)%nat
  ∧ (∀ m, 0 ≤ i → messages props !! Z.to_nat i = Some m →
          has_extractable_text m = true →
          ∃ t, t ∈ message_texts m ∧ p = truncate150 t)
  ∧ (p = "" ∨ p = "No content"
     ∨ ∃ m t, messages props !! Z.to_nat i = Some m
              ∧ t ∈ message_texts m ∧ p = truncate150 t)
  ∧ (∀ t, truncate150 t
          = if (150 <? String.length t)%nat
            then substring 0 150 t +:+ "..." else t).
Proof.
  intros i p. split; [done|].
  assert (∀ m, 0 ≤ i → messages props !! Z.to_nat i = Some m →
               has_extractable_text m = true →
               ∃ t, t ∈ message_texts m ∧ p = truncate150 t) as Htext.
  { intros m Hi Hm Hhas.
    destruct (extractMessageInfo_in_range (messages props) i m Hi Hm)
      as (c & Heq & Hc & Htruthy).
    rewrite Hhas in Htruthy. subst p. rewrite Heq. cbn [content].
    rewrite Htruthy. destruct Hc as [->|Hc]; [done|exact Hc]. }
  assert (p = "" ∨ p = "No content"
          ∨ ∃ m t, messages props !! Z.to_nat i = Some m
                   ∧ t ∈ message_texts m ∧ p = truncate150 t) as Hshape.
  { destruct (decide (i < 0 ∨ Z.of_nat (length (messages props)) ≤ i))
      as [Hout|Hin].
    - left. subst p. by rewrite extractMessageInfo_out_of_range.
    - destruct (messages props !! Z.to_nat i) as [m|] eqn:Hm.
      2: { apply lookup_ge_None in Hm. lia. }
      destruct (has_extractable_text m) eqn:Hhas.
      + destruct (Htext m ltac:(lia) eq_refl Hhas) as (t & Ht & Hp).
        right; right. eauto.
      + destruct (extractMessageInfo_in_range (messages props) i m)
          as (c & Heq & _ & Htruthy); [lia|done|].
        rewrite Hhas in Htruthy. right; left. subst p.
        rewrite Heq. cbn [content]. by rewrite Htruthy. }
  split; [|split; [exact Htext|split; [exact Hshape|]]].
  - destruct Hshape as [->|[->|(m & t & _ & _ & ->)]]; simpl; try lia.
    apply truncate150_length.
  - intros t. destruct (Nat.ltb_spec 150 (String.length t)) as [Hlong|Hshort].
    + by apply truncate150_long.
    + by apply truncate150_short.
Qed.

(** A message of 151 characters. *)
Lemma messageContent_is_preview_witness :
  ∃ t, t ∈ message_texts long_message
     ∧ content (extractMessageInfo [long_message] 0) = truncate150 t.
Proof.
  destruct (messageContent_is_preview single_checkpoint
              (props_with [long_message]) tt [cp "c0" 0 5] 0 (cp "c0" 0 5))
    as (_ & _ & Htext & _).
  apply (Htext long_message); [simpl; lia|reflexivity|reflexivity].
Defined.

(** ** The sort *)

Lemma insert_by_messageIndex_perm (x : TitorCheckpointInfo) l :
  insert_by_messageIndex x l ≡ₚ x :: l.
Proof.
  induction l as [|y l IH]; simpl; [done|].
  destruct (messageIndex x <=? messageIndex y); [done|].
  rewrite IH. apply Permutation_swap.
Qed.

Lemma sort_by_messageIndex_perm (l : list TitorCheckpointInfo) :
  sort_by_messageIndex l ≡ₚ l.
Proof.
  induction l as [|x l IH]; simpl; [done|].
  by rewrite insert_by_messageIndex_perm, IH.
Qed.

Lemma insert_by_messageIndex_sorted (x : TitorCheckpointInfo) l :
  StronglySorted index_le l →
  StronglySorted index_le (insert_by_messageIndex x l).
Proof.
  induction 1 as [|y l Hl IH Hy]; simpl.
  - repeat constructor.
  - destruct (Z.leb_spec (messageIndex x) (messageIndex y)) as [Hle|Hgt].
    + constructor; [by constructor|]. constructor; [done|].
      eapply Forall_impl; [exact Hy|]. unfold index_le in *. intros; lia.
    + constructor; [done|].
      rewrite insert_by_messageIndex_perm. constructor; [|done].
      unfold index_le. lia.
Qed.

Lemma sort_by_messageIndex_sorted (l : list TitorCheckpointInfo) :
  StronglySorted index_le (sort_by_messageIndex l).
Proof.
  induction l as [|x l IH]; simpl; [constructor|].
  by apply insert_by_messageIndex_sorted.
Qed.

(** The sort is stable: the checkpoints of one message index keep the
    order in which the API returned them. *)
Lemma insert_by_messageIndex_stable (k : Z) (x : TitorCheckpointInfo) l :
  StronglySorted index_le l →
  List.filter (λ c, messageIndex c =? k) (insert_by_messageIndex x l)
  = List.filter (λ c, messageIndex c =? k) (x :: l).
Proof.
  induction 1 as [|y l Hl IH Hy]; [done|].
  cbn [insert_by_messageIndex].
  destruct (Z.leb_spec (messageIndex x) (messageIndex y)) as [Hle|Hgt]; [done|].
  cbn [List.filter] in *. rewrite IH.
  destruct (Z.eqb_spec (messageIndex x) k), (Z.eqb_spec (messageIndex y) k);
    try done. lia.
Qed.

Lemma sort_by_messageIndex_stable (k : Z) (l : list TitorCheckpointInfo) :
  List.filter (λ c, messageIndex c =? k) (sort_by_messageIndex l)
  = List.filter (λ c, messageIndex c =? k) l.
Proof.
  induction l as [|x l IH]; [done|].
  cbn [sort_by_messageIndex foldr]. fold (sort_by_messageIndex l).
  rewrite insert_by_messageIndex_stable by apply sort_by_messageIndex_sorted.
  cbn [List.filter]. by rewrite IH.
Qed.

(** ** [loadCheckpoints] step by step *)

Section Load.
Context (api : Api) (props : Props).

Lemma enhance_all_lookup (b : Backend api) result (k : nat) :
  enhance_all api props b result !! k
  = enhance api props b (sort_by_messageIndex result) k
      <$> sort_by_messageIndex result !! k.
Proof. unfold enhance_all. apply list_lookup_imap. Qed.

Lemma enhance_all_length (b : Backend api) result :
  length (enhance_all api props b result) = length result.
Proof.
  unfold enhance_all. rewrite length_imap.
  apply Permutation_length, sort_by_messageIndex_perm.
Qed.

Lemma enhance_all_elem (b : Backend api) result (e : Enhancement) :
  e ∈ enhance_all api props b result ↔
  ∃ k c, sort_by_messageIndex result !! k = Some c
         ∧ e = enhance api props b (sort_by_messageIndex result) k c.
Proof.
  rewrite list_elem_of_lookup. split.
  - intros [k Hk]. rewrite enhance_all_lookup in Hk.
    destruct (sort_by_messageIndex result !! k) as [c|] eqn:Hc; [|done].
    exists k, c. by simplify_eq/=.
  - intros (k & c & Hc & ->). exists k. by rewrite enhance_all_lookup, Hc.
Qed.

Lemma enhanced_infos (b : Backend api) result :
  (λ e, info (enhanced e)) <$> enhance_all api props b result
  = sort_by_messageIndex result.
Proof.
  apply list_eq; intros k.
  rewrite list_lookup_fmap, enhance_all_lookup.
  by destruct (sort_by_messageIndex result !! k).
Qed.

(** The first checkpoint in sorted order. *)
Lemma enhance_first (b : Backend api) sorted (c : TitorCheckpointInfo) :
  let e := enhance api props b sorted 0 c in
  info (enhanced e) = c
  ∧ filesChanged (enhanced e)
    = Some {| added := fileCount c; modified := 0; deleted := 0 |}
  ∧ detailedFileChanges (enhanced e)
    = Some {| detail_added := []; detail_modified := []; detail_deleted := [] |}
  ∧ diff_requests e = []
  ∧ warnings e = [].
Proof. done. Qed.

(** A later checkpoint, when the diff against its predecessor succeeds. *)
Lemma enhance_later_ok (b : Backend api) sorted (j : nat)
    (prev c : TitorCheckpointInfo) (diff : DiffResponse) :
  sorted !! j = Some prev →
  titorDiffCheckpoints api b (sessionId props)
    (checkpointId prev) (checkpointId c) = Some diff →
  let e := enhance api props b sorted (S j) c in
  info (enhanced e) = c
  ∧ filesChanged (enhanced e)
    = Some {| added := Z.of_nat (length (addedFiles diff));
              modified := Z.of_nat (length (modifiedFiles diff));
              deleted := Z.of_nat (length (deletedFiles diff)) |}
  ∧ detailedFileChanges (enhanced e)
    = Some {| detail_added := extractFilePath <$> addedFiles diff;
              detail_modified := extractModified <$> modifiedFiles diff;
              detail_deleted := extractFilePath <$> deletedFiles diff |}
  ∧ diff_requests e
    = [DiffCheckpoints (sessionId props) (checkpointId prev) (checkpointId c)]
  ∧ warnings e = [].
Proof.
  intros Hprev Hdiff. unfold enhance.
  change (0 <? S j)%nat with true. cbv iota.
  replace (S j - 1)%nat with j by lia. rewrite Hprev, Hdiff.
  cbn. by rewrite !length_fmap.
Qed.

(** A later checkpoint, when the diff against its predecessor fails. *)
Lemma enhance_later_failed (b : Backend api) sorted (j : nat)
    (prev c : TitorCheckpointInfo) :
  sorted !! j = Some prev →
  titorDiffCheckpoints api b (sessionId props)
    (checkpointId prev) (checkpointId c) = None →
  let e := enhance api props b sorted (S j) c in
  info (enhanced e) = c
  ∧ filesChanged (enhanced e) = None
  ∧ detailedFileChanges (enhanced e) = None
  ∧ diff_requests e
    = [DiffCheckpoints (sessionId props) (checkpointId prev) (checkpointId c)]
  ∧ warnings e
    = [Warn "Failed to get diff for checkpoint:" (checkpointId c)].
Proof.
  intros Hprev Hdiff. unfold enhance.
  change (0 <? S j)%nat with true. cbv iota.
  replace (S j - 1)%nat with j by lia. by rewrite Hprev, Hdiff.
Qed.

(** The counts of an enhanced checkpoint: a file count alone, or three
    lengths. *)
Lemma enhance_counts (b : Backend api) sorted (k : nat)
    (c : TitorCheckpointInfo) (fc : FilesChanged) :
  filesChanged (enhanced (enhance api props b sorted k c)) = Some fc →
  (modified fc = 0 ∧ deleted fc = 0)
  ∨ (0 ≤ added fc ∧ 0 ≤ modified fc ∧ 0 ≤ deleted fc).
Proof.
  destruct k as [|j].
  - intros [= <-]. by left.
  - unfold enhance. change (0 <? S j)%nat with true. cbv iota.
    destruct (sorted !! (S j - 1)%nat) as [prev|]; [|done].
    destruct (titorDiffCheckpoints _ _ _ _ _) as [diff|]; [|done].
    intros [= <-]. right. cbn. lia.
Qed.

Lemma has_file_changes_total (b : Backend api) sorted (k : nat)
    (c : TitorCheckpointInfo) :
  let e := enhanced (enhance api props b sorted k c) in
  has_file_changes e = true ↔ 0 < total_changes e.
Proof.
  intros e. unfold has_file_changes, total_changes.
  destruct (filesChanged e) as [fc|] eqn:Hfc; [|split; [done|lia]].
  apply enhance_counts in Hfc.
  rewrite !orb_true_iff, !Z.gtb_ltb, !Z.ltb_lt. lia.
Qed.

(** A load whose list request succeeds. *)
Lemma loadCheckpoints_ready (w : World api) result :
  list_response api props (backend w) = Some result →
  let es := enhance_all api props (backend w) result in
  let w' := loadCheckpoints api props w in
  checkpoints (ui w') = List.filter has_file_changes (enhanced <$> es)
  ∧ error (ui w') = None
  ∧ isLoading (ui w') = false
  ∧ requests w'
    = requests w ++ list_request props :: concat (diff_requests <$> es)
  ∧ console w' = console w ++ concat (warnings <$> es)
  ∧ callbacks w' = callbacks w
  ∧ backend w' = backend w.
Proof.
  intros Hlist. unfold loadCheckpoints. cbn [backend send update].
  rewrite Hlist. cbn. by rewrite <- app_assoc.
Qed.

(** A load whose list request fails keeps what was published. *)
Lemma loadCheckpoints_failed (w : World api) :
  list_response api props (backend w) = None →
  let w' := loadCheckpoints api props w in
  checkpoints (ui w') = checkpoints (ui w)
  ∧ error (ui w') = Some "Failed to load checkpoints"
  ∧ requests w' = requests w ++ [list_request props]
  ∧ callbacks w' = callbacks w.
Proof.
  intros Hlist. unfold loadCheckpoints. cbn [backend send update].
  by rewrite Hlist.
Qed.

End Load.

(** ** Lists *)

Lemma elem_of_concat {A} (x : A) (l : list A) (ls : list (list A)) :
  x ∈ l → l ∈ ls → x ∈ concat ls.
Proof.
  rewrite !list_elem_of_In. intros Hx Hl. apply in_concat. eauto.
Qed.

Lemma elem_of_List_filter {A} (P : A → bool) (l : list A) (x : A) :
  x ∈ List.filter P l ↔ x ∈ l ∧ P x = true.
Proof. rewrite !list_elem_of_In. apply filter_In. Qed.

Lemma StronglySorted_fmap_filter {A} (R : relation Z) (f : A → Z)
    (P : A → bool) (l : list A) :
  StronglySorted R (f <$> l) → StronglySorted R (f <$> List.filter P l).
Proof.
  induction l as [|x l IH]; [done|].
  rewrite fmap_cons, StronglySorted_cons. intros [Hx Hl].
  cbn [List.filter]. destruct (P x); [|by apply IH].
  rewrite fmap_cons, StronglySorted_cons. split; [|by apply IH].
  rewrite Forall_forall in *. intros y Hy. apply Hx.
  apply list_elem_of_fmap in Hy as (a & -> & Ha).
  apply elem_of_List_filter in Ha as [Ha _]. by apply list_elem_of_fmap_2.
Qed.

Lemma StronglySorted_le_lt (l : list Z) :
  StronglySorted Z.le l → NoDup l → StronglySorted Z.lt l.
Proof.
  induction 1 as [|x l Hl IH Hx]; [constructor|].
  rewrite NoDup_cons. intros [Hnotin Hnodup].
  constructor; [by apply IH|].
  rewrite Forall_forall in *. intros y Hy.
  specialize (Hx y Hy). assert (x ≠ y) by (by intros ->). lia.
Qed.

(** ** C5 *)

(** C5: the enrichment of the first checkpoint in sorted order counts all
    its files as added, with no modified or deleted file and empty
    detailed lists, and sends no diff request; when it is the only
    checkpoint the load sends the list request alone and, the file count
    being positive, publishes this one checkpoint. *)
Theorem first_checkpoint_counts_its_files (api : Api) (props : Props)
    (w : World api) (result rest : list TitorCheckpointInfo)
    (c0 : TitorCheckpointInfo) :
  list_response api props (backend w) = Some result →
  sort_by_messageIndex result = c0 :: rest →
  ∃ e, enhance_all api props (backend w) result !! 0%nat = Some e
     ∧ info (enhanced e) = c0
     ∧ filesChanged (enhanced e)
       = Some {| added := fileCount c0; modified := 0; deleted := 0 |}
     ∧ detailedFileChanges (enhanced e)
       = Some {| detail_added := []; detail_modified := [];
                 detail_deleted := [] |}
     ∧ diff_requests e = []
     ∧ (rest = [] →
        requests_since w (loadCheckpoints api props w) = [list_request props]
        ∧ (0 < fileCount c0 →
           checkpoints (ui (loadCheckpoints api props w)) = [enhanced e])).
Proof.
  intros Hlist Hsorted.
  exists (enhance api props (backend w) (c0 :: rest) 0 c0).
  rewrite enhance_all_lookup, Hsorted.
  destruct (enhance_first api props (backend w) (c0 :: rest) c0)
    as (Hinfo & Hfc & Hdetail & Hreq & _).
  repeat (split; [done|]). intros ->.
  destruct (loadCheckpoints_ready api props w result Hlist)
    as (Hpub & _ & _ & Hsent & _).
  unfold requests_since. rewrite Hsent, drop_app_length, Hpub.
  unfold enhance_all. rewrite Hsorted. split; [done|].
  intros Hcount. cbn [imap fmap list_fmap List.filter].
  unfold has_file_changes. rewrite Hfc. cbn [added].
  destruct (Z.gtb_spec (fileCount c0) 0); [done|lia].
Qed.

(** A single checkpoint with [fileCount = 5]. *)
Lemma first_checkpoint_counts_its_files_witness :
  let w := opened single_checkpoint tt None "" in
  let w' := loadCheckpoints single_checkpoint (props_with []) w in
  ∃ e, filesChanged (enhanced e)
       = Some {| added := 5; modified := 0; deleted := 0 |}
     ∧ detailedFileChanges (enhanced e)
       = Some {| detail_added := []; detail_modified := [];
                 detail_deleted := [] |}
     ∧ diff_requests e = []
     ∧ requests_since w w' = [ListCheckpoints "s1"]
     ∧ checkpoints (ui w') = [enhanced e].
Proof.
  destruct (first_checkpoint_counts_its_files single_checkpoint (props_with [])
              (opened single_checkpoint tt None "") [cp "c0" 0 5] []
              (cp "c0" 0 5) eq_refl eq_refl)
    as (e & _ & _ & Hfc & Hdetail & Hreq & Halone).
  destruct (Halone eq_refl) as [Hsent Hpub].
  exists e. repeat split; try assumption. apply Hpub. reflexivity.
Defined.

(** ** C2 *)

(** C2: the enrichment of the checkpoint at a position [S j] of the sorted
    sequence sends exactly one diff request, from the checkpoint at
    position [j] to itself; its counts are the lengths of the three lists
    of the response to that request and its detailed lists are those
    lists (both undefined when the request is rejected). *)
Theorem later_checkpoint_diffs_its_predecessor (api : Api) (props : Props)
    (b : Backend api) (result : list TitorCheckpointInfo) (j : nat)
    (prev c : TitorCheckpointInfo) :
  sort_by_messageIndex result !! j = Some prev →
  sort_by_messageIndex result !! S j = Some c →
  ∃ e, enhance_all api props b result !! S j = Some e
     ∧ info (enhanced e) = c
     ∧ diff_requests e
       = [DiffCheckpoints (sessionId props) (checkpointId prev)
            (checkpointId c)]
     ∧ match titorDiffCheckpoints api b (sessionId props)
               (checkpointId prev) (checkpointId c) with
       | Some diff =>
           filesChanged (enhanced e)
           = Some {| added := Z.of_nat (length (addedFiles diff));
                     modified := Z.of_nat (length (modifiedFiles diff));
                     deleted := Z.of_nat (length (deletedFiles diff)) |}
           ∧ detailedFileChanges (enhanced e)
             = Some {| detail_added := extractFilePath <$> addedFiles diff;
                       detail_modified :=
                         extractModified <$> modifiedFiles diff;
                       detail_deleted :=
                         extractFilePath <$> deletedFiles diff |}
       | None =>
           filesChanged (enhanced e) = None
           ∧ detailedFileChanges (enhanced e) = None
       end.
Proof.
  intros Hprev Hc.
  exists (enhance api props b (sort_by_messageIndex result) (S j) c).
  rewrite enhance_all_lookup, Hc. split; [done|].
  destruct (titorDiffCheckpoints api b (sessionId props)
              (checkpointId prev) (checkpointId c)) as [diff|] eqn:Hdiff.
  - destruct (enhance_later_ok api props b _ j prev c diff Hprev Hdiff)
      as (? & ? & ? & ? & _). done.
  - destruct (enhance_later_failed api props b _ j prev c Hprev Hdiff)
      as (? & ? & ? & ? & _). done.
Qed.

(** The example of the spec: the third checkpoint shows one added and one
    deleted file, those of the step from the second. *)
Lemma later_checkpoint_diffs_its_predecessor_witness :
  ∃ e, enhance_all three_steps (props_with []) tt
         [cp "c0" 0 5; cp "c1" 1 6; cp "c2" 2 6] !! 2%nat = Some e
     ∧ diff_requests e = [DiffCheckpoints "s1" "c1" "c2"]
     ∧ filesChanged (enhanced e)
       = Some {| added := 1; modified := 0; deleted := 1 |}.
Proof.
  destruct (later_checkpoint_diffs_its_predecessor three_steps (props_with [])
              tt [cp "c0" 0 5; cp "c1" 1 6; cp "c2" 2 6] 1
              (cp "c1" 1 6) (cp "c2" 2 6) eq_refl eq_refl)
    as (e & He & _ & Hreq & Hfc & _).
  exists e. repeat split; assumption.
Defined.

(** ** C3 *)

(** C3: after a load whose list request succeeded, the published
    checkpoints are the enhanced checkpoints whose total change count is
    positive.  A checkpoint whose diff request was rejected has no change
    count, is not published, and a warning names it; the load still ends
    without error and enhances every listed checkpoint: one whose own diff
    request succeeded gets the counts of that response, whatever happened
    to the other requests. *)
Theorem published_iff_changed (api : Api) (props : Props) (w : World api)
    (result : list TitorCheckpointInfo) :
  list_response api props (backend w) = Some result →
  let sorted := sort_by_messageIndex result in
  let es := enhance_all api props (backend w) result in
  let w' := loadCheckpoints api props w in
  (∀ c, c ∈ checkpoints (ui w') ↔
        c ∈ (enhanced <$> es) ∧ 0 < total_changes c)
  ∧ (∀ j prev c,
       sorted !! j = Some prev → sorted !! S j = Some c →
       titorDiffCheckpoints api (backend w) (sessionId props)
         (checkpointId prev) (checkpointId c) = None →
       ∃ e, es !! S j = Some e
          ∧ info (enhanced e) = c
          ∧ filesChanged (enhanced e) = None
          ∧ (enhanced e ∉ checkpoints (ui w'))
          ∧ (Warn "Failed to get diff for checkpoint:" (checkpointId c))
            ∈ console w')
  ∧ error (ui w') = None
  ∧ length es = length result
  ∧ (∀ j prev c diff,
       sorted !! j = Some prev → sorted !! S j = Some c →
       titorDiffCheckpoints api (backend w) (sessionId props)
         (checkpointId prev) (checkpointId c) = Some diff →
       ∃ e, es !! S j = Some e
          ∧ info (enhanced e) = c
          ∧ filesChanged (enhanced e)
            = Some {| added := Z.of_nat (length (addedFiles diff));
                      modified := Z.of_nat (length (modifiedFiles diff));
                      deleted := Z.of_nat (length (deletedFiles diff)) |}).
Proof.
  intros Hlist sorted es w'.
  destruct (loadCheckpoints_ready api props w result Hlist)
    as (Hpub & Herr & _ & _ & Hlog & _).
  fold es w' in Hpub, Herr, Hlog.
  assert (∀ c, c ∈ checkpoints (ui w') ↔
               c ∈ (enhanced <$> es) ∧ 0 < total_changes c) as Hiff.
  { intros c. rewrite Hpub, elem_of_List_filter.
    split; intros [Hin Hc]; (split; [done|]);
      apply list_elem_of_fmap in Hin as (e & -> & He);
      apply enhance_all_elem in He as (k & c0 & _ & ->);
      by apply has_file_changes_total. }
  split; [exact Hiff|]. split; [|split; [done|split]].
  - intros j prev c Hprev Hc Hdiff.
    destruct (enhance_later_failed api props (backend w) sorted j prev c
                Hprev Hdiff) as (Hinfo & Hfc & _ & _ & Hwarn).
    exists (enhance api props (backend w) sorted (S j) c).
    assert (es !! S j = Some (enhance api props (backend w) sorted (S j) c))
      as Hlookup.
    { unfold es. rewrite enhance_all_lookup. fold sorted. by rewrite Hc. }
    repeat (split; [done|]). split.
    + intros Hin. apply Hiff in Hin as [_ Hpos].
      unfold total_changes in Hpos. rewrite Hfc in Hpos. lia.
    + rewrite Hlog. apply elem_of_app. right.
      eapply elem_of_concat; [|apply list_elem_of_fmap_2;
                                 by eapply list_elem_of_lookup_2].
      rewrite Hwarn. left.
  - apply enhance_all_length.
  - intros j prev c diff Hprev Hc Hdiff.
    destruct (enhance_later_ok api props (backend w) sorted j prev c diff
                Hprev Hdiff) as (Hinfo & Hfc & _).
    exists (enhance api props (backend w) sorted (S j) c).
    unfold es. rewrite enhance_all_lookup. fold sorted. by rewrite Hc.
Qed.

(** Three checkpoints, the diff of the second rejected: the first and the
    third are published, the second is not. *)
Lemma published_iff_changed_witness :
  let w' := loadCheckpoints middle_fails (props_with [])
              (opened middle_fails tt None "") in
  (info <$> checkpoints (ui w')) = [cp "c0" 0 5; cp "c2" 2 6]
  ∧ error (ui w') = None
  ∧ (Warn "Failed to get diff for checkpoint:" "c1") ∈ console w'.
Proof.
  destruct (published_iff_changed middle_fails (props_with [])
              (opened middle_fails tt None "")
              [cp "c0" 0 5; cp "c1" 1 6; cp "c2" 2 6] eq_refl)
    as (_ & Hfailed & Herr & _).
  destruct (Hfailed 0%nat (cp "c0" 0 5) (cp "c1" 1 6) eq_refl eq_refl eq_refl)
    as (e & _ & _ & _ & _ & Hwarn).
  split; [reflexivity|]. split; [exact Herr|exact Hwarn].
Defined.

(** ** C6 *)

(** C6, as stated, fails: two checkpoints of one message index are both
    published, and the sequence is not strictly ascending. *)
Lemma duplicate_indices_published_side_by_side :
  ¬ strictly_ascending
      (published_indices
         (loadCheckpoints same_index (props_with [])
            (opened same_index tt None ""))).
Proof.
  unfold strictly_ascending.
  change (published_indices _) with [1; 1].
  intros Hsorted. apply Sorted_inv in Hsorted as [_ Hhd].
  apply HdRel_inv in Hhd. lia.
Qed.

(** C6 (amended): after a load whose list request succeeded the published
    sequence is ascending by [messageIndex], equal indices side by side;
    it is strictly ascending when the indices of the listed checkpoints
    are pairwise distinct.  A load whose list request failed leaves the
    published sequence as it was. *)
Theorem published_sequence_ascending (api : Api) (props : Props)
    (w : World api) :
  let w' := loadCheckpoints api props w in
  match list_response api props (backend w) with
  | Some result =>
      ascending (published_indices w')
      ∧ (NoDup (messageIndex <$> result) →
         strictly_ascending (published_indices w'))
  | None => published_indices w' = published_indices w
  end.
Proof.
  intros w'.
  destruct (list_response api props (backend w)) as [result|] eqn:Hlist.
  2: { destruct (loadCheckpoints_failed api props w Hlist) as [Hpub _].
       unfold published_indices, w'. by rewrite Hpub. }
  destruct (loadCheckpoints_ready api props w result Hlist) as [Hpub _].
  assert (∀ R : relation Z,
            StronglySorted R (messageIndex <$> sort_by_messageIndex result) →
            Sorted R (published_indices w')) as Hkeep.
  { intros R HR. apply StronglySorted_Sorted.
    unfold published_indices, w'. rewrite Hpub.
    apply StronglySorted_fmap_filter.
    rewrite <- (enhanced_infos api props (backend w)) in HR.
    rewrite <- list_fmap_compose in HR. by rewrite <- list_fmap_compose. }
  assert (StronglySorted Z.le (messageIndex <$> sort_by_messageIndex result))
    as Hle.
  { eapply StronglySorted_fmap; [|apply sort_by_messageIndex_sorted]. done. }
  split; [by apply Hkeep|].
  intros Hnodup. apply Hkeep, StronglySorted_le_lt; [done|].
  by rewrite sort_by_messageIndex_perm.
Qed.

Lemma published_sequence_ascending_witness :
  let w' := loadCheckpoints three_steps (props_with [])
              (opened three_steps tt None "") in
  ascending (published_indices w') ∧ strictly_ascending (published_indices w').
Proof.
  destruct (published_sequence_ascending three_steps (props_with [])
              (opened three_steps tt None "")) as [Hle Hlt].
  split; [exact Hle|]. apply Hlt.
  apply (bool_decide_unpack _). vm_compute. exact I.
Defined.

(** ** [trim] *)

Lemma trim_end_truthy (s : string) :
  truthy (trim_end s) = negb (all_whitespace s).
Proof.
  induction s as [|c s IH]; [done|]. cbn [trim_end all_whitespace].
  destruct (trim_end s) as [|c' t].
  - apply (f_equal negb) in IH. rewrite negb_involutive in IH.
    rewrite <- IH, andb_true_r. by destruct (is_whitespace c).
  - apply (f_equal negb) in IH. rewrite negb_involutive in IH.
    by rewrite <- IH, andb_false_r.
Qed.

Lemma trim_start_all_whitespace (s : string) :
  all_whitespace (trim_start s) = all_whitespace s.
Proof.
  induction s as [|c s IH]; [done|]. cbn [trim_start].
  destruct (is_whitespace c) eqn:Hc; [|done].
  cbn [all_whitespace]. by rewrite Hc.
Qed.

Lemma trim_truthy (s : string) : truthy (trim s) = negb (all_whitespace s).
Proof. unfold trim. by rewrite trim_end_truthy, trim_start_all_whitespace. Qed.

(** ** What a load sends *)

Lemma existsb_false_Forall {A} (f : A → bool) (l : list A) :
  existsb f l = false ↔ Forall (λ x, f x = false) l.
Proof.
  induction l as [|x l IH]; simpl; [by split|].
  rewrite orb_false_iff, Forall_cons, IH. done.
Qed.

Lemma enhance_sends_no_fork (api : Api) (props : Props) (b : Backend api)
    sorted (k : nat) (c : TitorCheckpointInfo) :
  Forall (λ r, is_fork_request r = false)
    (diff_requests (enhance api props b sorted k c)).
Proof.
  unfold enhance. destruct (0 <? k)%nat; [|by constructor].
  destruct (sorted !! (k - 1)%nat) as [prev|]; [|by constructor].
  destruct (titorDiffCheckpoints _ _ _ _ _); by repeat constructor.
Qed.

Lemma loadCheckpoints_sends (api : Api) (props : Props) (w : World api) :
  ∃ sent, requests (loadCheckpoints api props w) = requests w ++ sent
        ∧ existsb is_fork_request sent = false
        ∧ callbacks (loadCheckpoints api props w) = callbacks w.
Proof.
  assert (is_fork_request (list_request props) = false) as Hlist.
  { unfold list_request. by destruct (_ && _). }
  destruct (list_response api props (backend w)) as [result|] eqn:Hresp.
  - destruct (loadCheckpoints_ready api props w result Hresp)
      as (_ & _ & _ & Hsent & _ & Hcb & _).
    eexists. split; [exact Hsent|]. split; [|exact Hcb].
    apply existsb_false_Forall. constructor; [done|].
    apply Forall_concat, Forall_fmap, Forall_forall.
    intros e (k & c & _ & ->)%enhance_all_elem.
    apply enhance_sends_no_fork.
  - destruct (loadCheckpoints_failed api props w Hresp)
      as (_ & _ & Hsent & Hcb).
    eexists. split; [exact Hsent|]. split; [|exact Hcb].
    simpl. by rewrite Hlist.
Qed.

(** ** C8 *)

(** C8: [handleForkCheckpoint] sends a fork request if and only if a
    checkpoint is selected and the description is not empty after
    trimming, that is, is not made of white space only.  Without a
    selected checkpoint, or with an empty or blank description, it does
    nothing at all.  Otherwise it sends one fork request, for the selected
    checkpoint and with the description as typed, and when the API returns
    a new checkpoint id it passes that id and the description to the
    callback of the parent. *)
Theorem fork_needs_description (api : Api) (props : Props) (w : World api) :
  let w' := handleForkCheckpoint api props w in
  let description := forkMessage (ui w) in
  (existsb is_fork_request (requests_since w w') = true ↔
   truthy_field (selectedCheckpoint (ui w)) = true
   ∧ truthy (trim description) = true)
  ∧ truthy (trim description) = negb (all_whitespace description)
  ∧ (truthy_field (selectedCheckpoint (ui w)) = false
     ∨ all_whitespace description = true → w' = w)
  ∧ (∀ selected,
       selectedCheckpoint (ui w) = Some selected → truthy selected = true →
       all_whitespace description = false →
       ∃ later,
         requests_since w w'
         = ForkCheckpoint (sessionId props) selected description :: later
         ∧ existsb is_fork_request later = false
         ∧ ∀ forkedCheckpointId,
             (titorForkCheckpoint api (backend w) (sessionId props)
                selected description).2 = Some forkedCheckpointId →
             onForkCheckpoint props = true →
             callbacks w'
             = callbacks w ++ [CheckpointForked forkedCheckpointId description]).
Proof.
  intros w' description.
  assert (truthy_field (selectedCheckpoint (ui w)) = false
          ∨ all_whitespace description = true → w' = w) as Hskip.
  { intros Hguard. unfold w', handleForkCheckpoint. fold description.
    rewrite trim_truthy.
    destruct Hguard as [Hsel| ->]; [|by rewrite orb_true_r].
    destruct (selectedCheckpoint (ui w)) as [selected|]; simpl in *;
      [by rewrite Hsel|done]. }
  assert (∀ selected,
            selectedCheckpoint (ui w) = Some selected → truthy selected = true →
            all_whitespace description = false →
            ∃ later,
              requests_since w w'
              = ForkCheckpoint (sessionId props) selected description :: later
              ∧ existsb is_fork_request later = false
              ∧ ∀ forkedCheckpointId,
                  (titorForkCheckpoint api (backend w) (sessionId props)
                     selected description).2 = Some forkedCheckpointId →
                  onForkCheckpoint props = true →
                  callbacks w'
                  = callbacks w
                    ++ [CheckpointForked forkedCheckpointId description])
    as Hfork.
  { intros selected Hsel Htruthy Hblank.
    unfold w', handleForkCheckpoint, requests_since. fold description.
    rewrite trim_truthy, Hsel, Hblank.
    change (default "" (Some selected)) with selected.
    rewrite Htruthy. cbn [negb orb backend send update].
    destruct (titorForkCheckpoint api (backend w) (sessionId props)
                selected description) as [b [forked|]] eqn:Hresp.
    - match goal with
      | |- context [loadCheckpoints api props ?w0] =>
          destruct (loadCheckpoints_sends api props w0)
            as (sent & Hsent & Hnofork & Hcb)
      end.
      exists sent. cbn [snd].
      split; [|split; [exact Hnofork|]].
      + destruct (onForkCheckpoint props); cbn; rewrite Hsent; cbn;
          by rewrite <- app_assoc, drop_app_length.
      + intros ? [= <-] ->. cbn. by rewrite Hcb.
    - exists []. cbn. rewrite drop_app_length. by repeat split. }
  split; [|split; [apply trim_truthy|split; [exact Hskip|exact Hfork]]].
  rewrite trim_truthy. split.
  - intros Hsent.
    destruct (truthy_field (selectedCheckpoint (ui w))) eqn:Hsel.
    2: { rewrite (Hskip (or_introl eq_refl)) in Hsent.
         unfold requests_since in Hsent. by rewrite drop_all in Hsent. }
    destruct (all_whitespace description) eqn:Hblank; [|done].
    rewrite (Hskip (or_intror eq_refl)) in Hsent.
    unfold requests_since in Hsent. by rewrite drop_all in Hsent.
  - intros [Hsel Hblank]. apply negb_true_iff in Hblank.
    destruct (selectedCheckpoint (ui w)) as [selected|] eqn:Hselected;
      [|done].
    destruct (Hfork selected eq_refl Hsel Hblank) as (later & -> & _). done.
Qed.

(** A fork of ["c1"] described ["try again"], and one with a blank
    description. *)
Lemma fork_needs_description_witness :
  let go := opened three_steps tt (Some "c1") "try again" in
  let blank := opened three_steps tt (Some "c1") "  " in
  handleForkCheckpoint three_steps (props_with []) blank = blank
  ∧ (∃ later,
       requests_since go (handleForkCheckpoint three_steps (props_with []) go)
       = ForkCheckpoint "s1" "c1" "try again" :: later)
  ∧ callbacks (handleForkCheckpoint three_steps (props_with []) go)
    = [CheckpointForked "forked-1" "try again"].
Proof.
  intros go blank.
  destruct (fork_needs_description three_steps (props_with []) blank)
    as (_ & _ & Hskip & _).
  destruct (fork_needs_description three_steps (props_with []) go)
    as (_ & _ & _ & Hfork).
  destruct (Hfork "c1" eq_refl eq_refl eq_refl) as (later & Hsent & _ & Hcb).
  split; [apply Hskip; right; reflexivity|].
  split; [by exists later|]. apply (Hcb "forked-1"); reflexivity.
Defined.

End TimelineProofs.


(** ** The registry beyond the claims *)

Module SessionRegistryProofs.
Import SessionStorage SessionStorageProofs SessionRegistry.

(** *** Running the operations *)

Lemma getAllSessions_frozen w :
  ticks w = [] →
  ∃ w', getAllSessions w = (Returned (live_entries (clock w) (persisted w)), w')
        ∧ localStorage w' = localStorage w
        ∧ writable w' = writable w
        ∧ clock w' = clock w
        ∧ ticks w' = [].
Proof.
  intros Hticks.
  unfold getAllSessions, try_catch, bind, getItem, persisted, Date_now.
  destruct (localStorage w) as [[|m]|] eqn:Hls; simpl;
    rewrite ?live_entries_empty, ?Hticks; eexists; (split; [reflexivity|]);
    simpl; by rewrite ?Hls.
Qed.

Lemma getAllSessions_console w :
  ∃ m w', getAllSessions w = (Returned m, w')
          ∧ console w'
            = console w
              ++ match localStorage w with
                 | Some Malformed => ["Failed to parse sessions from storage:"]
                 | _ => []
                 end.
Proof.
  unfold getAllSessions, try_catch, bind, getItem, Date_now.
  destruct (localStorage w) as [[|m]|]; simpl.
  - eexists _, _. split; [reflexivity|done].
  - eexists _, _. split; [reflexivity|].
    destruct (ticks w); simpl; by rewrite app_nil_r.
  - eexists _, _. split; [reflexivity|]. by rewrite app_nil_r.
Qed.

Lemma getSession_absent w id :
  persisted w !! id = None →
  (getSession id w).1 = Returned None
  ∧ localStorage (getSession id w).2 = localStorage w.
Proof.
  intros Hid. unfold getSession, try_catch, bind.
  destruct (getAllSessions_run w) as (w1 & -> & Hls & _).
  by rewrite live_entries_lookup, Hid.
Qed.

Lemma getSession_live w id s :
  persisted w !! id = Some s →
  next_clock w - timestamp s ≤ SESSION_EXPIRY_MS →
  (getSession id w).1 = Returned (Some s).
Proof.
  intros Hs Hlive. unfold getSession, try_catch, bind.
  destruct (getAllSessions_run w) as (w1 & Hrun & Hls & _ & _).
  assert (clock w1 = next_clock w) as Hw1.
  { revert Hrun Hs. unfold getAllSessions, try_catch, bind, getItem, persisted.
    destruct (localStorage w) as [[|m]|]; simpl;
      rewrite ?lookup_empty; try done.
    intros Heq _. by simplify_eq. }
  rewrite Hrun.
  destruct (Date_now_run w) as (_ & _ & _ & Hclk). fold (next_clock w) in Hclk.
  assert (live_entries (clock w) (persisted w) !! id = Some s) as ->.
  { apply live_entries_Some. split; [done|lia]. }
  destruct (Date_now_run w1) as (Hret & _).
  destruct (Date_now w1) as [r w2]. cbn [fst snd] in Hret. subst r.
  rewrite Hw1.
  by destruct (Z.gtb_spec (next_clock w - timestamp s) SESSION_EXPIRY_MS);
    [lia|].
Qed.

Lemma persisted_of_store w w' :
  localStorage w' = localStorage w → persisted w' = persisted w.
Proof. unfold persisted. by intros ->. Qed.

(** *** Save, then read *)

(** The timestamp that [saveSession] writes is the reading of the clock
    made between the start and the end of the call. *)
Lemma saveSession_window w id path msgs :
  writable w = true →
  ∃ t, clock w ≤ t ∧ t ≤ clock (saveSession id path msgs w).2 ∧
    localStorage (saveSession id path msgs w).2 =
      Some (Json (<[id := {| sessionId := id; projectPath := path;
                             messages := msgs; timestamp := t |}]>
                    (live_entries (clock w) (persisted w)))).
Proof.
  intros Hw. destruct (getAllSessions_run w) as (w1 & Hrun & _ & Hw1 & Hclk).
  destruct (Date_now_run w1) as (Hret & _ & Hw2 & Hclk2).
  exists (clock w1). split; [done|].
  unfold saveSession, try_catch, bind. rewrite Hrun.
  destruct (Date_now w1) as [r w2]. simpl in *. subst r.
  unfold setItem. rewrite Hw2, Hw1, Hw. simpl. done.
Qed.

(** A session that was saved is read back under its id with the path and
    the messages that were saved and a timestamp taken during the save
    (not before the clock at the start of the call, not after the clock
    at its end), by every read of the resulting store that happens
    within the 24 hours; whatever was stored under the id before is
    overwritten. *)
Theorem saveSession_then_getSession (w : World) (id path : string)
    (msgs : list string) :
  writable w = true →
  ∃ t, clock w ≤ t
     ∧ t ≤ clock (saveSession id path msgs w).2
     ∧ persisted (saveSession id path msgs w).2 !! id
       = Some {| sessionId := id; projectPath := path; messages := msgs;
                 timestamp := t |}
     ∧ ∀ w2, localStorage w2 = localStorage (saveSession id path msgs w).2 →
             next_clock w2 - t ≤ SESSION_EXPIRY_MS →
             (getSession id w2).1
             = Returned (Some {| sessionId := id; projectPath := path;
                                 messages := msgs; timestamp := t |}).
Proof.
  intros Hw.
  destruct (saveSession_window w id path msgs Hw) as (t & Ht & Hend & Hsave).
  exists t. split; [done|]. split; [done|].
  assert (persisted (saveSession id path msgs w).2 !! id
          = Some {| sessionId := id; projectPath := path; messages := msgs;
                    timestamp := t |}) as Hid.
  { unfold persisted. rewrite Hsave. apply lookup_insert_eq. }
  split; [exact Hid|].
  intros w2 Hsame Hlive. apply getSession_live; [|done].
  by rewrite (persisted_of_store _ _ Hsame).
Qed.

Lemma saveSession_then_getSession_witness :
  ∃ t, clock ticking_world ≤ t
     ∧ t ≤ clock (saveSession "a" "/new" ["m1"] ticking_world).2
     ∧ persisted (saveSession "a" "/new" ["m1"] ticking_world).2 !! "a"
       = Some {| sessionId := "a"; projectPath := "/new"; messages := ["m1"];
                 timestamp := t |}
     ∧ (getSession "a" (saveSession "a" "/new" ["m1"] ticking_world).2).1
       = Returned (Some {| sessionId := "a"; projectPath := "/new";
                           messages := ["m1"]; timestamp := t |}).
Proof.
  destruct (saveSession_then_getSession ticking_world "a" "/new" ["m1"]
              eq_refl)
    as (t & Ht & Hend & Hstored & Hread).
  exists t. split; [exact Ht|]. split; [exact Hend|].
  split; [exact Hstored|]. apply Hread; [reflexivity|].
  change (clock (saveSession _ _ _ _).2) with (SESSION_EXPIRY_MS + 8) in Hend.
  change (next_clock _) with (SESSION_EXPIRY_MS + 8).
  change (clock ticking_world) with (SESSION_EXPIRY_MS + 1) in Ht.
  unfold SESSION_EXPIRY_MS in *. lia.
Defined.

(** *** What a write keeps *)

(** A successful [saveSession] touches no other live session: under every
    other id the new store holds exactly the sessions of the old store
    that were not older than 24 hours at the time of the call. *)
Theorem saveSession_keeps_other_live_sessions (w : World) (id path : string)
    (msgs : list string) (k : string) (s : StoredSession) :
  writable w = true → k ≠ id →
  (persisted (saveSession id path msgs w).2 !! k = Some s ↔
   persisted w !! k = Some s ∧ ¬ expired_at (clock w) s).
Proof.
  intros Hw Hne. destruct (saveSession_run w id path msgs Hw) as (t & _ & Hsave).
  unfold persisted at 1. rewrite Hsave, lookup_insert_ne by done.
  rewrite live_entries_Some. unfold expired_at.
  split; intros [? ?]; (split; [done|lia]).
Qed.

Lemma saveSession_keeps_other_live_sessions_witness :
  persisted (saveSession "a" "/new" [] mixed_world).2 !! "b"
  = persisted mixed_world !! "b".
Proof.
  apply (saveSession_keeps_other_live_sessions mixed_world "a" "/new" [] "b");
    [reflexivity|done|].
  split; [reflexivity|]. unfold expired_at. vm_compute. discriminate.
Defined.

(** After a successful [removeSession] the id is gone from the store and
    every read of that store returns absent for it, while under every
    other id the live sessions are kept as they were. *)
Theorem removeSession_removes_only_its_id (w : World) (id : string) :
  writable w = true →
  let w' := (removeSession id w).2 in
  persisted w' !! id = None
  ∧ (∀ w2, localStorage w2 = localStorage w' →
           (getSession id w2).1 = Returned None)
  ∧ (∀ k s, k ≠ id →
            (persisted w' !! k = Some s ↔
             persisted w !! k = Some s ∧ ¬ expired_at (clock w) s)).
Proof.
  intros Hw w'. pose proof (removeSession_run w id Hw) as Hrm. fold w' in Hrm.
  assert (persisted w' !! id = None) as Hgone.
  { unfold persisted. rewrite Hrm. apply lookup_delete_eq. }
  split; [exact Hgone|]. split.
  - intros w2 Hsame. apply getSession_absent.
    by rewrite (persisted_of_store _ _ Hsame).
  - intros k s Hne. unfold persisted at 1.
    rewrite Hrm, lookup_delete_ne by done.
    rewrite live_entries_Some. unfold expired_at.
    split; intros [? ?]; (split; [done|lia]).
Qed.

Lemma removeSession_removes_only_its_id_witness :
  persisted (removeSession "a" mixed_world).2 !! "a" = None
  ∧ persisted (removeSession "a" mixed_world).2 !! "b"
    = persisted mixed_world !! "b".
Proof.
  destruct (removeSession_removes_only_its_id mixed_world "a" eq_refl)
    as (Hgone & _ & Hkeep).
  split; [exact Hgone|]. apply Hkeep; [done|].
  split; [reflexivity|]. unfold expired_at. vm_compute. discriminate.
Defined.

(** *** Failures *)

Lemma try_catch_returns {A} (body handler : M A) (w : World) :
  (∀ w1, ∃ a, (handler w1).1 = Returned a) →
  ∃ a, (try_catch body handler w).1 = Returned a.
Proof.
  intros Hhandler. unfold try_catch.
  destruct (body w) as [[a|] w1]; [by exists a|apply Hhandler].
Qed.

Lemma console_error_returns (msg : string) (w : World) :
  ∃ a, (console_error msg w).1 = Returned a.
Proof. by exists tt. Qed.

Lemma removeSession_returns (id : string) (w : World) :
  (removeSession id w).1 = Returned tt.
Proof.
  destruct (try_catch_returns
              (let* sessions := getAllSessions in setItem (delete id sessions))
              (console_error "Failed to remove session from storage:") w
              (console_error_returns _)) as [[] H]. exact H.
Qed.

(** No operation of the registry throws, whatever the store holds and
    whether or not it accepts writes: each returns to its caller. *)
Theorem registry_never_throws (w : World) (id path : string)
    (msgs : list string) :
  (∃ m, (getAllSessions w).1 = Returned m)
  ∧ (∃ r, (getSession id w).1 = Returned r)
  ∧ (saveSession id path msgs w).1 = Returned tt
  ∧ (removeSession id w).1 = Returned tt
  ∧ (clearAllSessions w).1 = Returned tt
  ∧ (∃ l, (getActiveSessions w).1 = Returned l).
Proof.
  assert (∀ w0, ∃ m, (getAllSessions w0).1 = Returned m) as Hall.
  { intros w0. destruct (getAllSessions_run w0) as (w1 & -> & _). eauto. }
  split; [apply Hall|]. split; [|split; [|split; [|split]]].
  - apply try_catch_returns. intros w1. by eexists.
  - destruct (try_catch_returns
                (let* sessions := getAllSessions in
                 let* now := Date_now in
                 setItem (<[id := {| sessionId := id; projectPath := path;
                                     messages := msgs; timestamp := now |}]>
                            sessions))
                (console_error "Failed to save session to storage:") w
                (console_error_returns _)) as [[] H]. exact H.
  - apply removeSession_returns.
  - destruct (try_catch_returns removeItem
                (console_error "Failed to clear sessions from storage:") w
                (console_error_returns _)) as [[] H]. exact H.
  - unfold getActiveSessions, bind.
    destruct (getAllSessions_run w) as (w1 & -> & _).
    generalize (Object_values (live_entries (clock w) (persisted w))).
    intros values. revert w1.
    induction values as [|s values IH]; intros w1; [by eexists|].
    cbn [filter_live]. unfold bind at 1.
    destruct (Date_now_run w1) as [Hnow _].
    destruct (Date_now w1) as [r w2]. cbn [fst] in Hnow. subst r.
    unfold bind. destruct (IH w2) as [l Hl].
    destruct (filter_live values w2) as [o w3]. cbn [fst] in Hl. subst o.
    by eexists.
Qed.

(** When the store does not accept writes, [saveSession], [removeSession]
    and [clearAllSessions] leave the stored blob as it was and each logs
    its error as the last line of the console. *)
Theorem unwritable_store_is_left_alone (w : World) (id path : string)
    (msgs : list string) :
  writable w = false →
  (localStorage (saveSession id path msgs w).2 = localStorage w
   ∧ last (console (saveSession id path msgs w).2)
     = Some "Failed to save session to storage:")
  ∧ (localStorage (removeSession id w).2 = localStorage w
     ∧ last (console (removeSession id w).2)
       = Some "Failed to remove session from storage:")
  ∧ (localStorage (clearAllSessions w).2 = localStorage w
     ∧ last (console (clearAllSessions w).2)
       = Some "Failed to clear sessions from storage:").
Proof.
  intros Hw. split; [|split].
  - unfold saveSession, try_catch, bind.
    destruct (getAllSessions_run w) as (w1 & -> & Hls & Hw1 & _).
    destruct (Date_now_run w1) as (Hnow & Hls2 & Hw2 & _).
    destruct (Date_now w1) as [r w2]. cbn [fst snd] in *. subst r.
    unfold setItem. rewrite Hw2, Hw1, Hw. cbn.
    split; [congruence|apply last_snoc].
  - unfold removeSession, try_catch, bind.
    destruct (getAllSessions_run w) as (w1 & -> & Hls & Hw1 & _).
    unfold setItem. rewrite Hw1, Hw. cbn.
    split; [done|apply last_snoc].
  - unfold clearAllSessions, try_catch, removeItem. rewrite Hw. cbn.
    split; [done|apply last_snoc].
Qed.

Lemma unwritable_store_is_left_alone_witness :
  localStorage (saveSession "b" "/q" [] read_only_world).2
  = localStorage read_only_world
  ∧ localStorage (clearAllSessions read_only_world).2
    = localStorage read_only_world.
Proof.
  destruct (unwritable_store_is_left_alone read_only_world "b" "/q" [] eq_refl)
    as ([Hsave _] & _ & [Hclear _]).
  by split.
Defined.

(** A store that does not parse reads as an empty registry: listing gives
    the empty mapping and logs the parse error without touching the
    blob, every lookup is absent, and a successful [saveSession] replaces
    the blob by a registry that holds the saved session alone. *)
Theorem corrupt_store_reads_as_empty (w : World) (id path : string)
    (msgs : list string) :
  localStorage w = Some Malformed →
  (getAllSessions w).1 = Returned ∅
  ∧ localStorage (getAllSessions w).2 = Some Malformed
  ∧ console (getAllSessions w).2
    = console w ++ ["Failed to parse sessions from storage:"]
  ∧ (getSession id w).1 = Returned None
  ∧ (writable w = true →
     ∃ t, localStorage (saveSession id path msgs w).2
          = Some (Json {[ id := {| sessionId := id; projectPath := path;
                                   messages := msgs; timestamp := t |} ]})).
Proof.
  intros Hls.
  assert (persisted w = ∅) as Hempty by (unfold persisted; by rewrite Hls).
  split; [|split; [|split; [|split]]].
  - destruct (getAllSessions_run w) as (w1 & -> & _).
    by rewrite Hempty, live_entries_empty.
  - destruct (getAllSessions_run w) as (w1 & -> & Hsame & _).
    cbn [snd]. by rewrite Hsame.
  - destruct (getAllSessions_console w) as (m & w1 & -> & Hlog).
    cbn [snd]. by rewrite Hlog, Hls.
  - apply getSession_absent. by rewrite Hempty.
  - intros Hw. destruct (saveSession_run w id path msgs Hw) as (t & _ & ->).
    exists t. by rewrite Hempty, live_entries_empty, insert_empty.
Qed.

Lemma corrupt_store_reads_as_empty_witness :
  (getAllSessions corrupt_world).1 = Returned ∅
  ∧ ∃ t, localStorage (saveSession "a" "/p" [] corrupt_world).2
         = Some (Json {[ "a" := {| sessionId := "a"; projectPath := "/p";
                                   messages := []; timestamp := t |} ]}).
Proof.
  destruct (corrupt_store_reads_as_empty corrupt_world "a" "/p" [] eq_refl)
    as (Hall & _ & _ & _ & Hsave).
  split; [exact Hall|]. apply Hsave. reflexivity.
Defined.

(** After a successful [clearAllSessions] the key is gone, and every read
    of such a store finds no session: the listing is empty and every
    lookup is absent. *)
Theorem clearAllSessions_empties_registry (w : World) :
  writable w = true →
  localStorage (clearAllSessions w).2 = None
  ∧ ∀ w2, localStorage w2 = None →
          (getAllSessions w2).1 = Returned ∅
          ∧ (getActiveSessions w2).1 = Returned []
          ∧ ∀ id, (getSession id w2).1 = Returned None.
Proof.
  intros Hw. split.
  - unfold clearAllSessions, try_catch, removeItem. by rewrite Hw.
  - intros w2 Hnone.
    assert (persisted w2 = ∅) as Hempty by (unfold persisted; by rewrite Hnone).
    split; [|split].
    + destruct (getAllSessions_run w2) as (w3 & -> & _).
      by rewrite Hempty, live_entries_empty.
    + unfold getActiveSessions, bind.
      destruct (getAllSessions_run w2) as (w3 & -> & _).
      by rewrite Hempty, live_entries_empty.
    + intros id. apply getSession_absent. by rewrite Hempty.
Qed.

Lemma clearAllSessions_empties_registry_witness :
  localStorage (clearAllSessions mixed_world).2 = None
  ∧ (getSession "b" (clearAllSessions mixed_world).2).1 = Returned None.
Proof.
  destruct (clearAllSessions_empties_registry mixed_world eq_refl)
    as [Hgone Hreads].
  split; [exact Hgone|]. by apply Hreads.
Defined.

(** *** The active sessions *)

Lemma Object_values_spec (m : gmap string StoredSession) (s : StoredSession) :
  s ∈ Object_values m ↔ ∃ id, m !! id = Some s.
Proof.
  unfold Object_values. rewrite list_elem_of_fmap. split.
  - intros [[id s'] [-> Hin]]. apply elem_of_map_to_list in Hin. by exists id.
  - intros [id Hid]. exists (id, s). split; [done|].
    by apply elem_of_map_to_list.
Qed.

(** The filter keeps nothing but values younger than 24 hours at the time
    it starts, and reads the store no more than it writes it. *)
Lemma filter_live_sound (values : list StoredSession) : ∀ w,
  ∃ l w', filter_live values w = (Returned l, w')
        ∧ localStorage w' = localStorage w
        ∧ clock w ≤ clock w'
        ∧ ∀ s, s ∈ l → s ∈ values ∧ clock w - timestamp s < SESSION_EXPIRY_MS.
Proof.
  induction values as [|s values IH]; intros w.
  - exists [], w. repeat split; try done; try lia; by apply elem_of_nil in H.
  - cbn [filter_live]. unfold bind at 1.
    destruct (Date_now_run w) as (Hnow & Hls & _ & Hclk).
    destruct (Date_now w) as [r w1]. cbn [fst snd] in *. subst r.
    unfold bind. destruct (IH w1) as (l & w2 & -> & Hls2 & Hclk2 & Hl).
    eexists _, w2. split; [reflexivity|].
    split; [congruence|]. split; [lia|].
    intros s0 Hin.
    destruct (Z.ltb_spec (clock w - timestamp s) SESSION_EXPIRY_MS) as [Hlt|Hge].
    + apply elem_of_cons in Hin as [->|Hin]; [split; [left|done]|].
      destruct (Hl s0 Hin). split; [by right|lia].
    + destruct (Hl s0 Hin). split; [by right|lia].
Qed.

(** With a clock that stands still the filter keeps exactly the values
    younger than 24 hours. *)
Lemma filter_live_frozen (values : list StoredSession) (w : World) :
  ticks w = [] →
  filter_live values w
  = (Returned (List.filter
                 (λ s, clock w - timestamp s <? SESSION_EXPIRY_MS) values), w).
Proof.
  intros Hticks. induction values as [|s values IH]; [done|].
  cbn [filter_live List.filter]. unfold bind at 1.
  unfold Date_now. rewrite Hticks. unfold bind. by rewrite IH.
Qed.

(** Every session that [getActiveSessions] returns is stored and was
    younger than 24 hours when the call started: a session of exactly 24
    hours, which [getAllSessions] and [getSession] still return, is not
    among them.  With a clock that stands still during the call the
    result holds exactly the stored sessions younger than 24 hours.  The
    call leaves the store as it was. *)
Theorem getActiveSessions_are_younger_than_ttl (w : World) :
  ∃ l, (getActiveSessions w).1 = Returned l
     ∧ localStorage (getActiveSessions w).2 = localStorage w
     ∧ (∀ s, s ∈ l →
             (∃ id, persisted w !! id = Some s)
             ∧ clock w - timestamp s < SESSION_EXPIRY_MS)
     ∧ (ticks w = [] →
        ∀ s, s ∈ l ↔
             (∃ id, persisted w !! id = Some s)
             ∧ clock w - timestamp s < SESSION_EXPIRY_MS).
Proof.
  unfold getActiveSessions, bind.
  destruct (getAllSessions_run w) as (w1 & Hrun & Hls & _ & Hclk).
  destruct (filter_live_sound
              (Object_values (live_entries (clock w) (persisted w))) w1)
    as (l & w2 & Hfilter & Hls2 & _ & Hl).
  rewrite Hrun, Hfilter. exists l. cbn [fst snd].
  split; [done|]. split; [congruence|].
  assert (∀ s, s ∈ l →
               (∃ id, persisted w !! id = Some s)
               ∧ clock w - timestamp s < SESSION_EXPIRY_MS) as Hsound.
  { intros s [Hin Hage]%Hl. split; [|lia].
    apply Object_values_spec in Hin as [id Hid].
    apply live_entries_Some in Hid as [Hid _]. by exists id. }
  split; [exact Hsound|].
  intros Hticks s. split; [apply Hsound|]. intros [[id Hid] Hage].
  destruct (getAllSessions_frozen w Hticks) as (w1' & Hrun' & _ & _ & Hc & Ht).
  rewrite Hrun in Hrun'. injection Hrun' as <-.
  rewrite (filter_live_frozen _ w1 Ht) in Hfilter. injection Hfilter as <- _.
  apply list_elem_of_In, filter_In. split.
  - apply list_elem_of_In, Object_values_spec. exists id.
    apply live_entries_Some. split; [done|lia].
  - rewrite Hc. by apply Z.ltb_lt.
Qed.

(** At exactly 24 hours the only session is not active. *)
Lemma getActiveSessions_are_younger_than_ttl_witness :
  ∃ l, (getActiveSessions boundary_world).1 = Returned l
     ∧ session_a 0 ∉ l.
Proof.
  destruct (getActiveSessions_are_younger_than_ttl boundary_world)
    as (l & Hl & _ & _ & Hexact).
  exists l. split; [exact Hl|].
  intros Hin. apply (Hexact eq_refl) in Hin as [_ Hage].
  vm_compute in Hage. discriminate.
Defined.

(** *** The keep-alive *)

(** The keep-alive of an active session whose stored session is not older
    than 24 hours rewrites it with a new timestamp, the project path of
    the active session and the stored messages; when the store accepts
    writes.  When no session is stored under the id, or the stored one is
    older than 24 hours, the keep-alive writes nothing: it never brings
    an expired session back. *)
Theorem keep_alive_refreshes_live_session_only (w : World)
    (a : ActiveSession) :
  let id := active_sessionId a in
  let w' := (keep_alive a w).2 in
  (∀ s, writable w = true → persisted w !! id = Some s →
        ¬ expired_at (clock w) s →
        ∃ t, clock w ≤ t
           ∧ persisted w' !! id
             = Some {| sessionId := id; projectPath := active_projectPath a;
                       messages := messages s; timestamp := t |})
  ∧ (persisted w !! id = None
     ∨ (∃ s, persisted w !! id = Some s ∧ expired_at (clock w) s) →
     localStorage w' = localStorage w).
Proof.
  intros id w'. unfold w', keep_alive, bind.
  destruct (getAllSessions_run w) as (w1 & -> & Hls & Hw1 & Hclk).
  fold id. split.
  - intros s Hw Hs Hlive.
    assert (live_entries (clock w) (persisted w) !! id = Some s) as ->.
    { apply live_entries_Some. unfold expired_at in Hlive. split; [done|lia]. }
    destruct (saveSession_run w1 id (active_projectPath a) (messages s))
      as (t & Ht & Hsave); [congruence|].
    exists t. split; [lia|].
    unfold persisted. rewrite Hsave. apply lookup_insert_eq.
  - intros Hdead.
    assert (live_entries (clock w) (persisted w) !! id = None) as ->; [|done].
    rewrite live_entries_lookup.
    destruct Hdead as [->|(s & -> & Hexp)]; [done|].
    unfold expired_at in Hexp.
    by destruct (Z.gtb_spec (clock w - timestamp s) SESSION_EXPIRY_MS); [|lia].
Qed.

Lemma keep_alive_refreshes_live_session_only_witness :
  let alive := {| active_sessionId := "b"; active_projectPath := "/q";
                  isActive := true; hasUnsavedChanges := false |} in
  let stale := {| active_sessionId := "a"; active_projectPath := "/p";
                  isActive := true; hasUnsavedChanges := false |} in
  (∃ t, persisted (keep_alive alive mixed_world).2 !! "b"
        = Some {| sessionId := "b"; projectPath := "/q"; messages := [];
                  timestamp := t |})
  ∧ localStorage (keep_alive stale mixed_world).2 = localStorage mixed_world.
Proof.
  intros alive stale. split.
  - destruct (keep_alive_refreshes_live_session_only mixed_world alive)
      as [Hlive _].
    destruct (Hlive _ eq_refl eq_refl) as (t & _ & Ht).
    + unfold expired_at. vm_compute. discriminate.
    + by exists t.
  - destruct (keep_alive_refreshes_live_session_only mixed_world stale)
      as [_ Hdead].
    apply Hdead. right. exists (session_a 0). split; [reflexivity|].
    unfold expired_at. vm_compute. reflexivity.
Defined.

(** *** Resuming a session *)

Lemma getSession_expired w id s :
  persisted w !! id = Some s → expired_at (clock w) s →
  (getSession id w).1 = Returned None.
Proof.
  intros Hs Hexp. unfold getSession, try_catch, bind.
  destruct (getAllSessions_run w) as (w1 & -> & _).
  rewrite live_entries_lookup, Hs. unfold expired_at in Hexp.
  by destruct (Z.gtb_spec (clock w - timestamp s) SESSION_EXPIRY_MS); [|lia].
Qed.

(** [resumeSession] announces a stored session that is not older than 24
    hours with its stored id, and with its stored project path both as
    project id and as project path; for an id that is not stored, or whose
    session is older than 24 hours, it announces nothing. *)
Theorem resumeSession_announces_live_sessions_only (w : World) (id : string) :
  (∀ s, persisted w !! id = Some s →
        next_clock w - timestamp s ≤ SESSION_EXPIRY_MS →
        (resumeSession id w).1
        = Returned (Some {| selected_id := sessionId s;
                            selected_project_id := projectPath s;
                            selected_project_path := projectPath s |}))
  ∧ (persisted w !! id = None
     ∨ (∃ s, persisted w !! id = Some s ∧ expired_at (clock w) s) →
     (resumeSession id w).1 = Returned None).
Proof.
  split.
  - intros s Hs Hlive. pose proof (getSession_live w id s Hs Hlive) as Hget.
    unfold resumeSession, bind.
    destruct (getSession id w) as [r w1]. cbn [fst] in Hget. by subst r.
  - intros Hdead.
    assert ((getSession id w).1 = Returned None) as Hget.
    { destruct Hdead as [Hnone|(s & Hs & Hexp)];
        [by apply getSession_absent|by eapply getSession_expired]. }
    unfold resumeSession, bind.
    destruct (getSession id w) as [r w1]. cbn [fst] in Hget. by subst r.
Qed.

Lemma resumeSession_announces_live_sessions_only_witness :
  (resumeSession "b" mixed_world).1
  = Returned (Some {| selected_id := "b"; selected_project_id := "/q";
                      selected_project_path := "/q" |})
  ∧ (resumeSession "a" mixed_world).1 = Returned None.
Proof.
  destruct (resumeSession_announces_live_sessions_only mixed_world "b")
    as [Hlive _].
  destruct (resumeSession_announces_live_sessions_only mixed_world "a")
    as [_ Hdead].
  split.
  - apply (Hlive _ eq_refl). vm_compute. discriminate.
  - apply Hdead. right. exists (session_a 0). split; [reflexivity|].
    unfold expired_at. vm_compute. reflexivity.
Defined.

(** *** The age shown for a session *)

(** For a timestamp that is not in the future [formatTimeSince] shows the
    age rounded down to whole minutes: as minutes alone below one hour,
    else as hours and the remaining minutes, which are fewer than 60. *)
Theorem formatTimeSince_rounds_down (w : World) (timestamp : Z) :
  timestamp ≤ clock w →
  ∃ h m, 0 ≤ h ∧ 0 ≤ m < 60
       ∧ 60000 * (60 * h + m) ≤ clock w - timestamp
         < 60000 * (60 * h + m + 1)
       ∧ (formatTimeSince timestamp w).1
         = Returned (if h =? 0 then pretty m +:+ "m ago"
                     else pretty h +:+ "h " +:+ pretty m +:+ "m ago").
Proof.
  intros Hpast. unfold formatTimeSince, bind.
  destruct (Date_now_run w) as [Hnow _].
  destruct (Date_now w) as [r w1]. cbn [fst] in Hnow. subst r.
  set (age := clock w - timestamp).
  set (minutes := age / (1000 * 60)).
  assert (0 ≤ minutes) as Hmin by (apply Z.div_pos; lia).
  exists (minutes / 60), (minutes `mod` 60).
  split; [apply Z.div_pos; lia|]. split; [by apply Z.mod_pos_bound|].
  split.
  - subst minutes. Z.div_mod_to_equations. lia.
  - cbn [fst ret]. rewrite Z.rem_mod_nonneg by lia.
    destruct (Z.gtb_spec (minutes / 60) 0) as [Hpos|Hzero].
    + by destruct (Z.eqb_spec (minutes / 60) 0); [lia|].
    + assert (minutes / 60 = 0) as Hh by (Z.div_mod_to_equations; lia).
      rewrite Hh. cbn [Z.eqb]. f_equal. f_equal. f_equal.
      symmetry. apply Z.mod_small. Z.div_mod_to_equations. lia.
Qed.

(** Ninety-one and a half minutes ago. *)
Lemma formatTimeSince_rounds_down_witness :
  (formatTimeSince 0 (world_with ∅ 5490000)).1 = Returned "1h 31m ago".
Proof.
  destruct (formatTimeSince_rounds_down (world_with ∅ 5490000) 0)
    as (h & m & Hh & Hm & Hage & Hshown); [simpl; lia|].
  rewrite Hshown. change (clock (world_with ∅ 5490000) - 0) with 5490000 in Hage.
  assert (h = 1 ∧ m = 31) as [-> ->] by lia. reflexivity.
Defined.

End SessionRegistryProofs.


(** ** The timeline beyond the claims *)

Module TimelineViewProofs.
Import Timeline TimelineProofs TimelineView.

(** *** What a load sends and publishes *)

Section LoadMore.
Context (api : Api) (props : Props).

Lemma enhance_diff_requests (b : Backend api) sorted (k : nat)
    (c : TitorCheckpointInfo) :
  sorted !! k = Some c →
  diff_requests (enhance api props b sorted k c)
  = match k with
    | 0%nat => []
    | S j => match sorted !! j with
             | Some prev => [step_request props (prev, c)]
             | None => []
             end
    end.
Proof.
  intros Hc. destruct k as [|j]; [done|].
  unfold enhance. change (0 <? S j)%nat with true. cbv iota.
  replace (S j - 1)%nat with j by lia.
  destruct (sorted !! j) as [prev|]; [|done].
  by destruct (titorDiffCheckpoints _ _ _ _ _).
Qed.

Lemma concat_singletons {A B} (g : A → B) (l : list A) :
  concat ((λ x, [g x]) <$> l) = g <$> l.
Proof.
  induction l as [|x l IH]; [done|].
  rewrite !fmap_cons. cbn [concat app]. by rewrite IH.
Qed.

Lemma all_diff_requests (b : Backend api) result :
  concat (diff_requests <$> enhance_all api props b result)
  = step_request props <$> zip (sort_by_messageIndex result)
                         (tail (sort_by_messageIndex result)).
Proof.
  set (sorted := sort_by_messageIndex result).
  rewrite <- (concat_singletons (step_request props)).
  destruct sorted as [|c0 rest] eqn:Hsorted.
  { unfold enhance_all. fold sorted. by rewrite Hsorted. }
  assert (diff_requests <$> enhance_all api props b result
          = [] :: ((λ x, [step_request props x]) <$> zip (c0 :: rest) rest))
    as ->; [|done].
  apply list_eq. intros k.
  rewrite list_lookup_fmap, enhance_all_lookup. fold sorted. rewrite Hsorted.
  destruct k as [|j]; [done|].
  change ((c0 :: rest) !! S j) with (rest !! j).
  change ((?x :: ?l) !! S j) with (l !! j).
  rewrite list_lookup_fmap, lookup_zip_with.
  destruct (rest !! j) as [c|] eqn:Hc; [|by destruct ((c0 :: rest) !! j)].
  change (diff_requests <$> (enhance api props b (c0 :: rest) (S j) <$> Some c))
    with (Some (diff_requests (enhance api props b (c0 :: rest) (S j) c))).
  rewrite (enhance_diff_requests b (c0 :: rest) (S j) c Hc).
  assert (is_Some ((c0 :: rest) !! j)) as [prev Hprev].
  { apply lookup_lt_is_Some. apply lookup_lt_Some in Hc. simpl. lia. }
  by rewrite Hprev.
Qed.

Lemma loadCheckpoints_requests (w : World api) result :
  list_response api props (backend w) = Some result →
  requests_since w (loadCheckpoints api props w)
  = list_request props
    :: (step_request props
          <$> zip (sort_by_messageIndex result)
                  (tail (sort_by_messageIndex result))).
Proof.
  intros Hlist.
  destruct (loadCheckpoints_ready api props w result Hlist)
    as (_ & _ & _ & Hsent & _).
  unfold requests_since.
  by rewrite Hsent, drop_app_length, all_diff_requests.
Qed.

Lemma loadCheckpoints_backend (w : World api) :
  backend (loadCheckpoints api props w) = backend w.
Proof.
  unfold loadCheckpoints. cbn [backend send update log].
  by destruct (list_response api props (backend w)).
Qed.

(** A load whose list request succeeds sends, after the list request, one
    diff request for each pair of neighbours of the sorted list, in
    order, and nothing else: as many requests as checkpoints listed (one
    when none is).  Every diff request carries the [sessionId] of the
    component, also when the checkpoints of all sessions are listed. *)
Theorem load_sends_one_diff_per_step (w : World api) result :
  list_response api props (backend w) = Some result →
  let sorted := sort_by_messageIndex result in
  let sent := requests_since w (loadCheckpoints api props w) in
  sent = list_request props :: (step_request props <$> zip sorted (tail sorted))
  ∧ length sent = (1 `max` length result)%nat.
Proof.
  intros Hlist sorted sent.
  destruct (loadCheckpoints_ready api props w result Hlist)
    as (_ & _ & _ & Hsent & _).
  assert (sent = list_request props
                 :: (step_request props <$> zip sorted (tail sorted))) as ->.
  { unfold sent, requests_since.
    by rewrite Hsent, drop_app_length, all_diff_requests. }
  split; [done|]. cbn [length]. rewrite length_fmap, length_zip_with.
  assert (length sorted = length result) as <-
    by apply Permutation_length, sort_by_messageIndex_perm.
  destruct sorted; cbn [tail length]; lia.
Qed.

End LoadMore.

Lemma load_sends_one_diff_per_step_witness :
  requests_since (opened three_steps tt None "")
    (loadCheckpoints three_steps (props_with [])
       (opened three_steps tt None ""))
  = [ListCheckpoints "s1"; DiffCheckpoints "s1" "c0" "c1";
     DiffCheckpoints "s1" "c1" "c2"].
Proof.
  destruct (load_sends_one_diff_per_step three_steps (props_with [])
              (opened three_steps tt None "")
              [cp "c0" 0 5; cp "c1" 1 6; cp "c2" 2 6] eq_refl) as [Hsent _].
  exact Hsent.
Defined.

(** A reload changes nothing that the component shows: loading a second
    time from the same backend leaves every cell of the state as the first
    load left it.  What a successful load publishes does not depend on
    what was published before. *)
Theorem reload_is_idempotent (api : Api) (props : Props) (w : World api) :
  let w1 := loadCheckpoints api props w in
  ui (loadCheckpoints api props w1) = ui w1
  ∧ backend (loadCheckpoints api props w1) = backend w
  ∧ ∀ w2 : World api,
      backend w2 = backend w →
      is_Some (list_response api props (backend w)) →
      checkpoints (ui (loadCheckpoints api props w2)) = checkpoints (ui w1).
Proof.
  intros w1. split; [|split].
  - unfold w1, loadCheckpoints. cbn [backend send update log].
    destruct (list_response api props (backend w)) as [result|] eqn:Hlist;
      cbn [backend send update log]; by rewrite Hlist.
  - unfold w1, loadCheckpoints. cbn [backend send update log].
    destruct (list_response api props (backend w)) as [result|] eqn:Hlist;
      cbn [backend send update log]; by rewrite Hlist.
  - intros w2 Hsame [result Hlist]. unfold w1.
    destruct (loadCheckpoints_ready api props w result Hlist) as [-> _].
    rewrite <- Hsame in Hlist.
    destruct (loadCheckpoints_ready api props w2 result Hlist) as [-> _].
    by rewrite Hsame.
Qed.

Lemma reload_is_idempotent_witness :
  let w := opened three_steps tt (Some "c1") "note" in
  checkpoints (ui (loadCheckpoints three_steps (props_with []) w))
  = checkpoints (ui (loadCheckpoints three_steps (props_with [])
                       (opened three_steps tt None ""))).
Proof.
  intros w.
  destruct (reload_is_idempotent three_steps (props_with [])
              (opened three_steps tt None "")) as (_ & _ & Hsame).
  apply Hsame; [reflexivity|]. by eexists.
Defined.

(** A load whose list request fails keeps the checkpoints that were
    published, reports the failure in the error cell and on the console,
    clears the loading flag, and sends no diff request. *)
Theorem failed_load_keeps_published (api : Api) (props : Props)
    (w : World api) :
  list_response api props (backend w) = None →
  let w' := loadCheckpoints api props w in
  checkpoints (ui w') = checkpoints (ui w)
  ∧ error (ui w') = Some "Failed to load checkpoints"
  ∧ isLoading (ui w') = false
  ∧ requests_since w w' = [list_request props]
  ∧ console w' = console w ++ [Error "Failed to load checkpoints:"]
  ∧ callbacks w' = callbacks w.
Proof.
  intros Hlist w'. unfold w', requests_since, loadCheckpoints.
  cbn [backend send update log]. rewrite Hlist. cbn.
  by rewrite drop_app_length.
Qed.

(** A backend whose list request is rejected. *)
Lemma failed_load_keeps_published_witness :
  let down :=
    {| Backend := unit;
       titorListCheckpoints := λ _ _, None;
       titorListAllCheckpoints := λ _ _, None;
       titorDiffCheckpoints := λ _ _ _ _, None;
       titorForkCheckpoint := λ b _ _ _, (b, None) |} in
  error (ui (loadCheckpoints down (props_with []) (opened down tt None "")))
  = Some "Failed to load checkpoints".
Proof.
  intros down.
  destruct (failed_load_keeps_published down (props_with [])
              (opened down tt None "") eq_refl) as (_ & Herr & _).
  exact Herr.
Defined.

Lemma List_filter_sublist {A} (P : A → bool) (l : list A) :
  List.filter P l `sublist_of` l.
Proof.
  induction l as [|x l IH]; [done|]. cbn [List.filter].
  destruct (P x); by constructor.
Qed.

(** What a successful load publishes is taken from what the API listed:
    the published checkpoints are, in the sorted order, a selection of
    the listed ones, each of them at most as often as it was listed: the
    load adds no checkpoint. *)
Theorem published_are_listed (api : Api) (props : Props) (w : World api)
    result :
  list_response api props (backend w) = Some result →
  let published :=
    info <$> checkpoints (ui (loadCheckpoints api props w)) in
  published `sublist_of` sort_by_messageIndex result
  ∧ published ⊆+ result
  ∧ (∀ c, c ∈ published → c ∈ result)
  ∧ (length published ≤ length result)%nat.
Proof.
  intros Hlist published.
  destruct (loadCheckpoints_ready api props w result Hlist) as [Hpub _].
  assert (published `sublist_of` sort_by_messageIndex result) as Hsub.
  { unfold published. rewrite Hpub.
    rewrite <- (enhanced_infos api props (backend w) result).
    rewrite (list_fmap_compose enhanced info).
    apply fmap_sublist, List_filter_sublist. }
  assert (published ⊆+ result) as Hmset.
  { rewrite <- (sort_by_messageIndex_perm result).
    by apply sublist_submseteq. }
  split; [done|]. split; [done|]. split.
  - intros c Hc. by eapply elem_of_submseteq.
  - by apply submseteq_length.
Qed.

Lemma published_are_listed_witness :
  (info <$> checkpoints
              (ui (loadCheckpoints middle_fails (props_with [])
                     (opened middle_fails tt None ""))))
  ⊆+ [cp "c0" 0 5; cp "c1" 1 6; cp "c2" 2 6].
Proof.
  destruct (published_are_listed middle_fails (props_with [])
              (opened middle_fails tt None "")
              [cp "c0" 0 5; cp "c1" 1 6; cp "c2" 2 6] eq_refl)
    as (_ & Hmset & _).
  exact Hmset.
Defined.

(** *** Tools and previews *)

(** The tools of an enhanced checkpoint are those of the message at its
    [messageIndex]: for an assistant message inside the array, the names
    of all its ['tool_use'] items, in order and with repetitions, whether
    or not the message has a text; for any other message, none. *)
Theorem toolsUsed_are_the_tool_names (api : Api) (props : Props)
    (b : Backend api) sorted (k : nat) (c : TitorCheckpointInfo)
    (m : ClaudeStreamMessage) :
  0 ≤ messageIndex c →
  messages props !! Z.to_nat (messageIndex c) = Some m →
  toolsUsed (enhanced (enhance api props b sorted k c))
  = Some (if String.eqb (msg_type m) "assistant" then tool_names m else []).
Proof.
  intros Hi Hm.
  destruct (extractMessageInfo_in_range (messages props) (messageIndex c) m
              Hi Hm) as (p & Heq & _).
  change (toolsUsed (enhanced (enhance api props b sorted k c)))
    with (Some (tools (extractMessageInfo (messages props) (messageIndex c)))).
  by rewrite Heq.
Qed.

(** An assistant message with a text and two uses of one tool. *)
Lemma toolsUsed_are_the_tool_names_witness :
  let use := {| item_type := "tool_use"; item_text := TextUndefined;
                item_name := Some "Edit" |} in
  let say := {| item_type := "text"; item_text := TextString "done";
                item_name := None |} in
  let m := {| msg_type := "assistant";
              msg_content := ContentArray [use; say; use] |} in
  toolsUsed (enhanced (enhance single_checkpoint (props_with [m]) tt
                         [cp "c0" 0 5] 0 (cp "c0" 0 5)))
  = Some ["Edit"; "Edit"].
Proof.
  intros use say m.
  apply (toolsUsed_are_the_tool_names single_checkpoint (props_with [m]) tt
           [cp "c0" 0 5] 0 (cp "c0" 0 5) m); [simpl; lia|reflexivity].
Defined.

Lemma last_cons_default (c0 t : string) (l : list string) :
  default c0 (last (t :: l)) = default t (last l).
Proof. rewrite last_cons. by destruct (last l). Qed.

(** The assistant loop over texts shorter than 150 characters keeps the
    last non-empty one. *)
Lemma assistant_loop_short (items : list ContentItem) : ∀ c0 t0,
  (String.length c0 < 150)%nat →
  Forall (λ t, (String.length t < 150)%nat) (item_texts items) →
  (foldl assistant_item (c0, t0) items).1 = default c0 (last_text items).
Proof.
  unfold last_text, item_texts.
  induction items as [|c items IH]; intros c0 t0 Hc0 Hshort; [done|].
  change (foldl assistant_item (c0, t0) (c :: items))
    with (foldl assistant_item (assistant_item (c0, t0) c) items).
  cbn [List.filter] in *. unfold assistant_item. fold (is_text_item c).
  destruct (is_text_item c) eqn:Htext.
  - rewrite fmap_cons in *. apply Forall_cons in Hshort as [Ht Hshort].
    cbn [List.filter].
    destruct (truthy (text_value (item_text c))) eqn:Htruthy.
    + destruct (Nat.ltb_spec (String.length c0) 150) as [_|?]; [|lia].
      cbn [andb]. rewrite truncate150_short by lia.
      rewrite IH by done. by rewrite last_cons_default.
    + cbn [andb]. by apply IH.
  - destruct (String.eqb (item_type c) "tool_use");
      [destruct (item_name c) as [name|]; [destruct (truthy name)|]|];
      by apply IH.
Qed.

Lemma user_content_first (items : list ContentItem) :
  user_content items = truncate150 (default "" (head (item_texts items))).
Proof.
  unfold user_content, item_texts. fold is_text_item.
  induction items as [|c items IH]; [done|]. cbn [List.find List.filter].
  destruct (is_text_item c); [|exact IH]. rewrite fmap_cons. cbn [head default].
  change (default "" (Some ?t)) with t.
  destruct (item_text c) as [|s|[s|]]; try done.
  by destruct s.
Qed.

(** Which text becomes the preview.  For an assistant message with an
    array content whose texts are all shorter than 150 characters it is
    the last non-empty text; for a user message with an array content it
    is the preview of the first ['text'] item, and the later ones are not
    looked at.  In both cases ['No content'] stands for an empty
    result. *)
Theorem preview_takes_last_assistant_text_first_user_text
    (msgs : list ClaudeStreamMessage) (i : Z) (m : ClaudeStreamMessage)
    (items : list ContentItem) :
  0 ≤ i → msgs !! Z.to_nat i = Some m →
  msg_content m = ContentArray items →
  (msg_type m = "assistant" →
   Forall (λ t, (String.length t < 150)%nat) (item_texts items) →
   content (extractMessageInfo msgs i)
   = default "No content" (last_text items))
  ∧ (msg_type m = "user" →
     content (extractMessageInfo msgs i)
     = let first := truncate150 (default "" (head (item_texts items))) in
       if truthy first then first else "No content").
Proof.
  intros Hi Hm Hcontent. unfold extractMessageInfo.
  assert (Z.to_nat i < length msgs)%nat as Hlt by by eapply lookup_lt_Some.
  destruct (Z.ltb_spec i 0); [lia|].
  destruct (Z.leb_spec (Z.of_nat (length msgs)) i); [lia|]. cbn [orb].
  rewrite Hm, Hcontent. split.
  - intros Htype Hshort. rewrite Htype.
    change ("assistant" =? "assistant")%string with true.
    cbn [content_truthy andb].
    pose proof (assistant_loop_short items "" [] ltac:(simpl; lia) Hshort)
      as Hloop.
    destruct (foldl assistant_item ("", []) items) as [p tools].
    cbn [fst] in Hloop. cbn [content]. rewrite Hloop.
    unfold last_text.
    destruct (last (List.filter truthy (item_texts items))) as [t|] eqn:Hlast;
      [|done].
    change (default "" (Some t)) with t.
    assert (truthy t = true) as ->; [|done].
    apply last_Some_elem_of, list_elem_of_In, filter_In in Hlast. by destruct Hlast.
  - intros Htype. rewrite Htype.
    change ("user" =? "assistant")%string with false.
    change ("user" =? "user")%string with true.
    cbn [andb content_truthy content]. by rewrite user_content_first.
Qed.

(** Two short texts in an assistant message and in a user message. *)
Lemma preview_takes_last_assistant_text_first_user_text_witness :
  let one := {| item_type := "text"; item_text := TextString "one";
                item_name := None |} in
  let two := {| item_type := "text"; item_text := TextString "two";
                item_name := None |} in
  content (extractMessageInfo
             [{| msg_type := "assistant";
                 msg_content := ContentArray [one; two] |}] 0) = "two"
  ∧ content (extractMessageInfo
               [{| msg_type := "user";
                   msg_content := ContentArray [one; two] |}] 0) = "one".
Proof.
  intros one two. split.
  - destruct (preview_takes_last_assistant_text_first_user_text
                [{| msg_type := "assistant";
                    msg_content := ContentArray [one; two] |}] 0 _ [one; two]
                ltac:(lia) eq_refl eq_refl) as [Hassistant _].
    apply Hassistant; [reflexivity|].
    repeat constructor; simpl; lia.
  - destruct (preview_takes_last_assistant_text_first_user_text
                [{| msg_type := "user";
                    msg_content := ContentArray [one; two] |}] 0 _ [one; two]
                ltac:(lia) eq_refl eq_refl) as [_ Huser].
    by apply Huser.
Defined.

(** *** Verifying a checkpoint *)

Lemma set_verified_info (id : string) (v : option bool)
    (l : list CheckpointWithUIState) :
  info <$> set_verified id v l = info <$> l.
Proof.
  unfold set_verified. rewrite <- list_fmap_compose. apply list_fmap_ext.
  intros _ c _. simpl. by destruct (String.eqb _ _).
Qed.

Lemma set_verified_twice (id : string) (v1 v2 : option bool)
    (l : list CheckpointWithUIState) :
  set_verified id v2 (set_verified id v1 l) = set_verified id v2 l.
Proof.
  unfold set_verified. rewrite <- list_fmap_compose. apply list_fmap_ext.
  intros _ c _. simpl.
  destruct (String.eqb (checkpointId (info c)) id) eqn:Hid; simpl;
    by rewrite Hid.
Qed.

Lemma set_verified_None (id : string) (l : list CheckpointWithUIState) :
  (∀ c, c ∈ l → checkpointId (info c) = id → verified c = None) →
  set_verified id None l = l.
Proof.
  intros Hnone. unfold set_verified. rewrite <- (list_fmap_id l) at 2.
  apply list_fmap_ext. intros k c Hc. simpl.
  destruct (String.eqb_spec (checkpointId (info c)) id) as [Hid|]; [|done].
  assert (verified c = None) as Hv.
  { apply Hnone; [|done]. by eapply list_elem_of_lookup_2. }
  destruct c. simpl in *. by subst.
Qed.

Lemma find_by_id_Some (id : string) (l : list CheckpointWithUIState) :
  is_Some (List.find (λ cp, String.eqb (checkpointId (info cp)) id) l) ↔
  ∃ c, c ∈ l ∧ checkpointId (info c) = id.
Proof.
  split.
  - intros [c Hc]. apply find_some in Hc as [Hin Hid].
    exists c. split; [by apply list_elem_of_In|by apply String.eqb_eq].
  - intros (c & Hin & Hid).
    destruct (List.find _ l) as [c'|] eqn:Hfind; [by eexists|].
    eapply find_none in Hfind; [|by apply list_elem_of_In].
    apply String.eqb_neq in Hfind. done.
Qed.

(** Verifying a checkpoint never changes which checkpoints are shown or
    their order.  When the API confirms a checkpoint that is shown, all
    the checkpoints of that id, and only they, get the mark, and a timer
    of 3000 ms is set; in every other case (not confirmed, request
    rejected, checkpoint not shown) the list and the timers stay as they
    were, with an error message for the first two.  When the timer fires,
    a list whose checkpoints of that id were unmarked before, as after a
    load, is what it was before the verification. *)
Theorem verified_mark_is_transient (api : Api) (more : ApiMore api)
    (props : Props) (v : View api) (id : string) :
  let v1 := handleVerifyCheckpoint api more props id v in
  let shown := checkpoints (ui (world v)) in
  let answer :=
    titorVerifyCheckpoint more (backend (world v)) (sessionId props) id in
  info <$> checkpoints (ui (world v1)) = info <$> shown
  ∧ (answer = Some true → (∃ c, c ∈ shown ∧ checkpointId (info c) = id) →
     checkpoints (ui (world v1)) = set_verified id (Some true) shown
     ∧ timers v1 = timers v ++ [(3000, id)]
     ∧ ∀ k c c', shown !! k = Some c → checkpoints (ui (world v1)) !! k = Some c' →
                 if String.eqb (checkpointId (info c)) id
                 then verified c' = Some true else c' = c)
  ∧ (answer ≠ Some true ∨ ¬ (∃ c, c ∈ shown ∧ checkpointId (info c) = id) →
     checkpoints (ui (world v1)) = shown ∧ timers v1 = timers v)
  ∧ (answer = Some false →
     error (ui (world v1)) = Some "Checkpoint verification failed")
  ∧ (answer = None →
     error (ui (world v1)) = Some "Failed to verify checkpoint")
  ∧ ((∀ c, c ∈ shown → checkpointId (info c) = id → verified c = None) →
     checkpoints (ui (world (clear_verified api id v1))) = shown).
Proof.
  intros v1 shown answer.
  assert (answer = Some true → (∃ c, c ∈ shown ∧ checkpointId (info c) = id) →
          checkpoints (ui (world v1)) = set_verified id (Some true) shown
          ∧ timers v1 = timers v ++ [(3000, id)]) as Hmark.
  { intros Hyes Hshown%find_by_id_Some. destruct Hshown as [c Hfind].
    unfold v1, handleVerifyCheckpoint. cbn [world call backend].
    fold answer. rewrite Hyes. cbn [ui world call]. fold shown.
    by rewrite Hfind. }
  assert (answer ≠ Some true ∨ ¬ (∃ c, c ∈ shown ∧ checkpointId (info c) = id) →
          checkpoints (ui (world v1)) = shown ∧ timers v1 = timers v) as Hkeep.
  { intros Hno. unfold v1, handleVerifyCheckpoint. cbn [world call backend].
    fold answer. destruct answer as [[|]|]; try done.
    destruct Hno as [?|Hno]; [done|].
    cbn [ui world call]. fold shown.
    destruct (List.find _ shown) as [c|] eqn:Hfind; [|done].
    destruct Hno. apply find_by_id_Some. by eexists. }
  assert (checkpoints (ui (world v1)) = set_verified id (Some true) shown
          ∨ checkpoints (ui (world v1)) = shown) as Hcases.
  { destruct (decide (answer = Some true)) as [Hyes|Hno];
      [|right; by apply Hkeep; left].
    destruct (List.find (λ cp, String.eqb (checkpointId (info cp)) id) shown)
      as [c|] eqn:Hfind.
    - left. apply Hmark; [done|]. apply find_by_id_Some. by eexists.
    - right. apply Hkeep. right. intros [? Hc]%find_by_id_Some.
      by rewrite Hfind in Hc. }
  split; [|split; [|split; [exact Hkeep|split; [|split]]]].
  - destruct Hcases as [-> | ->]; [apply set_verified_info|done].
  - intros Hyes Hshown. destruct (Hmark Hyes Hshown) as [Hcps Htimers].
    split; [done|]. split; [done|]. intros k c c' Hc Hc'.
    rewrite Hcps in Hc'. unfold set_verified in Hc'.
    rewrite list_lookup_fmap, Hc in Hc'. cbn in Hc'.
    destruct (String.eqb _ _); by simplify_eq.
  - intros Hno. unfold v1, handleVerifyCheckpoint. cbn [world call backend].
    fold answer. by rewrite Hno.
  - intros Hrejected. unfold v1, handleVerifyCheckpoint.
    cbn [world call backend]. fold answer. by rewrite Hrejected.
  - intros Hunmarked.
    change (checkpoints (ui (world (clear_verified api id v1))))
      with (set_verified id None (checkpoints (ui (world v1)))).
    destruct Hcases as [-> | ->]; rewrite ?set_verified_twice;
      by apply set_verified_None.
Qed.

Lemma verified_mark_is_transient_witness :
  let v1 := handleVerifyCheckpoint three_steps three_steps_more
              (props_with []) "c1" loaded_view in
  verified <$> checkpoints (ui (world v1)) = [None; Some true; None]
  ∧ timers v1 = [(3000, "c1")]
  ∧ checkpoints (ui (world (clear_verified three_steps "c1" v1)))
    = checkpoints (ui (world loaded_view)).
Proof.
  intros v1.
  destruct (verified_mark_is_transient three_steps three_steps_more
              (props_with []) loaded_view "c1")
    as (_ & Hmark & _ & _ & _ & Hclear).
  destruct Hmark as (Hcps & Htimers & _); [reflexivity| |].
  { eexists. split; [apply list_elem_of_lookup; exists 1%nat; reflexivity|].
    reflexivity. }
  split; [unfold v1; by rewrite Hcps|]. split; [exact Htimers|].
  apply Hclear. intros c Hc _.
  apply list_elem_of_lookup in Hc as [k Hk].
  destruct k as [|[|[|k]]]; vm_compute in Hk;
    [injection Hk as <-; reflexivity..|discriminate].
Defined.

(** *** Creating a checkpoint *)

(** Creating a checkpoint asks the API once, for the current message
    index and with a label that names the message by its position
    counted from one.  When the API accepts, the list is reloaded from the
    backend as the creation left it, and shows what that backend lists;
    when it refuses, nothing is reloaded: the checkpoints shown stay, no
    request is sent, and the error is reported.  Either way the creating
    flag is cleared. *)
Theorem create_reloads_only_on_success (api : Api) (more : ApiMore api)
    (props : Props) (v : View api) :
  let v' := handleCreateCheckpoint api more props v in
  let label :=
    "Manual checkpoint at message " +:+ pretty (currentMessageIndex props + 1) in
  let outcome :=
    titorCheckpointMessage more (backend (world v)) (sessionId props)
      (currentMessageIndex props) label in
  calls v'
  = calls v ++ [CheckpointMessage (sessionId props)
                  (currentMessageIndex props) label]
  ∧ isCreatingCheckpoint v' = false
  ∧ backend (world v') = outcome.1
  ∧ (outcome.2 = None →
     checkpoints (ui (world v')) = checkpoints (ui (world v))
     ∧ requests (world v') = requests (world v)
     ∧ error (ui (world v')) = Some "Failed to create checkpoint")
  ∧ (is_Some outcome.2 →
     ∀ result, list_response api props outcome.1 = Some result →
       checkpoints (ui (world v'))
       = List.filter has_file_changes
           (enhanced <$> enhance_all api props outcome.1 result)
       ∧ error (ui (world v')) = None
       ∧ requests_since (world v) (world v')
         = list_request props
           :: (step_request props
                 <$> zip (sort_by_messageIndex result)
                         (tail (sort_by_messageIndex result)))).
Proof.
  intros v' label outcome. unfold v', handleCreateCheckpoint.
  fold label. cbn [world call on_world setIsCreatingCheckpoint backend update].
  fold outcome. destruct outcome as [b [[]|]] eqn:Houtcome.
  - cbn [world calls isCreatingCheckpoint on_world setIsCreatingCheckpoint
         call fst snd].
    match goal with
    | |- context [loadCheckpoints api props ?w0] => set (w1 := w0)
    end.
    split; [done|]. split; [done|].
    split; [apply loadCheckpoints_backend|].
    split; [done|]. intros _ result Hlist.
    change (backend w1) with b in *.
    destruct (loadCheckpoints_ready api props w1 result Hlist)
      as (Hpub & Herr & _).
    split; [exact Hpub|]. split; [exact Herr|].
    exact (loadCheckpoints_requests api props w1 result Hlist).
  - cbn. split; [done|]. split; [done|]. split; [done|].
    split; [done|]. by intros [? ?].
Qed.

Lemma create_reloads_only_on_success_witness :
  requests (world (handleCreateCheckpoint three_steps rejecting_more
                     (props_with []) loaded_view))
  = requests (world loaded_view)
  ∧ checkpoints (ui (world (handleCreateCheckpoint three_steps
                              three_steps_more (props_with []) loaded_view)))
    = checkpoints (ui (world loaded_view)).
Proof.
  destruct (create_reloads_only_on_success three_steps rejecting_more
              (props_with []) loaded_view) as (_ & _ & _ & Hrefused & _).
  destruct (Hrefused eq_refl) as (_ & Hsame & _).
  split; [exact Hsame|].
  destruct (create_reloads_only_on_success three_steps three_steps_more
              (props_with []) loaded_view) as (_ & _ & _ & _ & Haccepted).
  destruct (Haccepted ltac:(by eexists)
              [cp "c0" 0 5; cp "c1" 1 6; cp "c2" 2 6] eq_refl) as [Hpub _].
  exact Hpub.
Defined.

(** *** The active checkpoint and the scroll target *)

Lemma ascending_lookup_le (l : list Z) : ∀ i j x y,
  ascending l → l !! i = Some x → l !! j = Some y → (i ≤ j)%nat → x ≤ y.
Proof.
  unfold ascending. intros i j x y Hsorted.
  apply Sorted_StronglySorted in Hsorted; [|intros ???; lia].
  revert i j. induction Hsorted as [|a l Hl IH Ha]; intros i j Hi Hj Hij;
    [done|].
  destruct i as [|i], j as [|j]; simplify_eq/=; try lia.
  - rewrite Forall_forall in Ha. apply Ha. by eapply list_elem_of_lookup_2.
  - eapply IH; eauto. lia.
Qed.

Lemma index_lookup (cps : list CheckpointWithUIState) (i : nat)
    (c : CheckpointWithUIState) :
  cps !! i = Some c →
  ((λ c, messageIndex (info c)) <$> cps) !! i = Some (messageIndex (info c)).
Proof. intros Hc. by rewrite list_lookup_fmap, Hc. Qed.

(** In an ascending list a checkpoint is shown as active exactly when it
    is the last one at or before the current message: its message index
    does not exceed the current one and that of every later checkpoint
    does.  So at most one checkpoint of the list is active. *)
Theorem at_most_one_active_checkpoint (cps : list CheckpointWithUIState)
    (current : Z) :
  ascending ((λ c, messageIndex (info c)) <$> cps) →
  (∀ i c, cps !! i = Some c →
          (isActive cps current i c = true ↔
           messageIndex (info c) ≤ current
           ∧ ∀ j cj, (i < j)%nat → cps !! j = Some cj →
                     current < messageIndex (info cj)))
  ∧ (∀ i j ci cj, cps !! i = Some ci → cps !! j = Some cj →
                  isActive cps current i ci = true →
                  isActive cps current j cj = true → i = j)
  ∧ (length (active_positions cps current) ≤ 1)%nat.
Proof.
  intros Hsorted.
  assert (∀ i c, cps !! i = Some c →
                 (isActive cps current i c = true ↔
                  messageIndex (info c) ≤ current
                  ∧ ∀ j cj, (i < j)%nat → cps !! j = Some cj →
                            current < messageIndex (info cj))) as Hiff.
  { intros i c Hc. unfold isActive.
    rewrite andb_true_iff, orb_true_iff, Z.leb_le, Z.eqb_eq.
    pose proof (lookup_lt_Some _ _ _ Hc) as Hlt.
    split.
    - intros [Hle Hlast]. split; [done|]. intros j cj Hij Hcj.
      pose proof (lookup_lt_Some _ _ _ Hcj) as Hj.
      destruct Hlast as [Hlast|Hnext]; [lia|].
      destruct (cps !! S i) as [next|] eqn:Hn; [|done].
      apply Z.gtb_lt in Hnext.
      pose proof (ascending_lookup_le _ (S i) j _ _ Hsorted
                    (index_lookup _ _ _ Hn) (index_lookup _ _ _ Hcj)
                    ltac:(lia)). lia.
    - intros [Hle Hlater]. split; [done|].
      destruct (cps !! S i) as [next|] eqn:Hn.
      + right. apply Z.gtb_lt. by apply (Hlater (S i)); [lia|].
      + left. apply lookup_ge_None in Hn. lia. }
  assert (∀ i j ci cj, cps !! i = Some ci → cps !! j = Some cj →
                       isActive cps current i ci = true →
                       isActive cps current j cj = true → i = j) as Hunique.
  { intros i j ci cj Hi Hj [Hile Hilater]%Hiff [Hjle Hjlater]%Hiff; try done.
    destruct (Nat.lt_trichotomy i j) as [Hlt|[->|Hgt]]; [|done|].
    - specialize (Hilater j cj Hlt Hj). lia.
    - specialize (Hjlater i ci Hgt Hi). lia. }
  split; [exact Hiff|]. split; [exact Hunique|].
  assert (NoDup (active_positions cps current)) as Hnodup.
  { apply NoDup_ListNoDup, List.NoDup_filter, List.seq_NoDup. }
  assert (∀ i, i ∈ active_positions cps current →
               ∃ c, cps !! i = Some c ∧ isActive cps current i c = true)
    as Hactive.
  { intros i [_ Hi]%list_elem_of_In%filter_In.
    destruct (cps !! i) as [c|]; [by exists c|done]. }
  destruct (active_positions cps current) as [|a [|b rest]]; simpl; try lia.
  destruct (Hactive a) as (ca & Hca & Haa); [left|].
  destruct (Hactive b) as (cb & Hcb & Hab); [right; left|].
  pose proof (Hunique a b ca cb Hca Hcb Haa Hab) as ->.
  apply NoDup_cons in Hnodup as [Hnotin _]. destruct Hnotin. left.
Qed.

Lemma at_most_one_active_checkpoint_witness :
  active_positions (checkpoints (ui (world loaded_view))) 1 = [1%nat].
Proof.
  destruct (at_most_one_active_checkpoint
              (checkpoints (ui (world loaded_view))) 1) as (_ & _ & Hlen).
  { repeat constructor; simpl; lia. }
  reflexivity.
Defined.

(** The checkpoint that the dialog scrolls to, when there is one, is the
    first of the list: in an ascending list the search for a checkpoint
    at or before the current message stops at the head.  It is the active
    checkpoint only when the active checkpoint is the first. *)
Theorem scroll_goes_to_first_checkpoint (cps : list CheckpointWithUIState)
    (current : Z) :
  ascending ((λ c, messageIndex (info c)) <$> cps) →
  scroll_target cps current
  = match cps with
    | [] => None
    | c :: _ => if messageIndex (info c) <=? current then Some c else None
    end
  ∧ ∀ i c, cps !! i = Some c → isActive cps current i c = true →
           scroll_target cps current = head cps.
Proof.
  intros Hsorted.
  assert (scroll_target cps current
          = match cps with
            | [] => None
            | c :: _ =>
                if messageIndex (info c) <=? current then Some c else None
            end) as Htarget.
  { destruct cps as [|c0 rest]; [done|]. unfold scroll_target.
    cbn [List.find].
    destruct (Z.leb_spec (messageIndex (info c0)) current) as [|Hgt]; [done|].
    destruct (List.find _ rest) as [c|] eqn:Hfind; [|done].
    apply find_some in Hfind as [Hin%list_elem_of_In Hle%Z.leb_le].
    apply list_elem_of_lookup in Hin as [k Hk].
    pose proof (ascending_lookup_le _ 0 (S k) _ _ Hsorted
                  (index_lookup (c0 :: rest) 0 c0 eq_refl)
                  (index_lookup (c0 :: rest) (S k) c Hk) ltac:(lia)).
    lia. }
  split; [exact Htarget|]. intros i c Hc Hactive. rewrite Htarget.
  destruct cps as [|c0 rest]; [done|].
  unfold isActive in Hactive. apply andb_true_iff in Hactive as [Hle _].
  apply Z.leb_le in Hle.
  pose proof (ascending_lookup_le _ 0 i _ _ Hsorted
                (index_lookup (c0 :: rest) 0 c0 eq_refl)
                (index_lookup (c0 :: rest) i c Hc) ltac:(lia)).
  by destruct (Z.leb_spec (messageIndex (info c0)) current); [|lia].
Qed.

(** With the current message at index 2 the third checkpoint is active
    and the dialog scrolls to the first. *)
Lemma scroll_goes_to_first_checkpoint_witness :
  let cps := checkpoints (ui (world loaded_view)) in
  active_positions cps 2 = [2%nat]
  ∧ scroll_target cps 2 = cps !! 0%nat.
Proof.
  intros cps. split; [reflexivity|].
  destruct (scroll_goes_to_first_checkpoint cps 2) as [Htarget _].
  { repeat constructor; simpl; lia. }
  rewrite Htarget. reflexivity.
Defined.

(** *** The outcomes of a fork *)

(** When the fork request is rejected the dialog is left ready for
    another attempt: the selection, the description and the open dialogs
    stay, the checkpoints shown stay, nothing is reloaded (the fork
    request is the only one sent), the parent is not called, and the
    error is reported with the restoring flag cleared. *)
Theorem rejected_fork_keeps_dialog (api : Api) (props : Props)
    (w : World api) (selected : string) :
  selectedCheckpoint (ui w) = Some selected → truthy selected = true →
  all_whitespace (forkMessage (ui w)) = false →
  (titorForkCheckpoint api (backend w) (sessionId props) selected
     (forkMessage (ui w))).2 = None →
  let w' := handleForkCheckpoint api props w in
  checkpoints (ui w') = checkpoints (ui w)
  ∧ selectedCheckpoint (ui w') = Some selected
  ∧ forkMessage (ui w') = forkMessage (ui w)
  ∧ showForkDialog (ui w') = showForkDialog (ui w)
  ∧ isOpen (ui w') = isOpen (ui w)
  ∧ error (ui w') = Some "Failed to fork checkpoint"
  ∧ isRestoring (ui w') = false
  ∧ requests_since w w'
    = [ForkCheckpoint (sessionId props) selected (forkMessage (ui w))]
  ∧ console w' = console w ++ [Error "Failed to fork checkpoint:"]
  ∧ callbacks w' = callbacks w.
Proof.
  intros Hsel Htruthy Hblank Hrejected w'.
  unfold w', handleForkCheckpoint, requests_since.
  rewrite trim_truthy, Hsel, Hblank.
  change (default "" (Some selected)) with selected.
  rewrite Htruthy. cbn [negb orb backend send update].
  destruct (titorForkCheckpoint api (backend w) (sessionId props) selected
              (forkMessage (ui w))) as [b response].
  cbn [snd] in Hrejected. subst response. cbn.
  by rewrite drop_app_length, Hsel.
Qed.

(** After a fork that the API accepted the dialogs are closed and the
    selection and the description are cleared, the restoring flag too;
    the handler run again on that state does nothing: a second submission
    sends no second fork. *)
Theorem accepted_fork_closes_and_does_not_repeat (api : Api) (props : Props)
    (w : World api) (selected forkedCheckpointId : string) :
  selectedCheckpoint (ui w) = Some selected → truthy selected = true →
  all_whitespace (forkMessage (ui w)) = false →
  (titorForkCheckpoint api (backend w) (sessionId props) selected
     (forkMessage (ui w))).2 = Some forkedCheckpointId →
  let w' := handleForkCheckpoint api props w in
  isOpen (ui w') = false
  ∧ showForkDialog (ui w') = false
  ∧ selectedCheckpoint (ui w') = None
  ∧ forkMessage (ui w') = ""
  ∧ isRestoring (ui w') = false
  ∧ backend w'
    = (titorForkCheckpoint api (backend w) (sessionId props) selected
         (forkMessage (ui w))).1
  ∧ handleForkCheckpoint api props w' = w'.
Proof.
  intros Hsel Htruthy Hblank Haccepted w'.
  assert (isOpen (ui w') = false ∧ showForkDialog (ui w') = false
          ∧ selectedCheckpoint (ui w') = None ∧ forkMessage (ui w') = ""
          ∧ isRestoring (ui w') = false
          ∧ backend w'
            = (titorForkCheckpoint api (backend w) (sessionId props) selected
                 (forkMessage (ui w))).1) as Hstate.
  { unfold w', handleForkCheckpoint.
    rewrite trim_truthy, Hsel, Hblank.
    change (default "" (Some selected)) with selected.
    rewrite Htruthy. cbn [negb orb backend send update].
    destruct (titorForkCheckpoint api (backend w) (sessionId props) selected
                (forkMessage (ui w))) as [b response].
    cbn [snd] in Haccepted. subst response. cbn [fst].
    destruct (onForkCheckpoint props);
      cbn [ui backend update call_back set_backend send setIsRestoring
           setIsOpen setSelectedCheckpoint setForkMessage setShowForkDialog
           compose isOpen showForkDialog selectedCheckpoint forkMessage
           isRestoring];
      by rewrite loadCheckpoints_backend. }
  destruct Hstate as (? & ? & Hnone & ? & ? & ?).
  repeat (split; [done|]).
  unfold handleForkCheckpoint at 1. by rewrite Hnone.
Qed.

Lemma accepted_fork_closes_and_does_not_repeat_witness :
  let w' := handleForkCheckpoint three_steps (props_with [])
              (opened three_steps tt (Some "c1") "try again") in
  isOpen (ui w') = false
  ∧ handleForkCheckpoint three_steps (props_with []) w' = w'.
Proof.
  intros w'.
  destruct (accepted_fork_closes_and_does_not_repeat three_steps
              (props_with []) (opened three_steps tt (Some "c1") "try again")
              "c1" "forked-1" eq_refl eq_refl eq_refl eq_refl)
    as (Hopen & _ & _ & _ & _ & _ & Hrepeat).
  by split.
Defined.

(** A backend that lists three checkpoints and rejects every fork. *)
Lemma rejected_fork_keeps_dialog_witness :
  let no_fork :=
    {| Backend := unit;
       titorListCheckpoints := λ _ _, Some [cp "c0" 0 5];
       titorListAllCheckpoints := λ _ _, Some [cp "c0" 0 5];
       titorDiffCheckpoints := λ _ _ _ _, None;
       titorForkCheckpoint := λ b _ _ _, (b, None) |} in
  let w := opened no_fork tt (Some "c0") "try again" in
  forkMessage (ui (handleForkCheckpoint no_fork (props_with []) w))
  = "try again"
  ∧ requests_since w (handleForkCheckpoint no_fork (props_with []) w)
    = [ForkCheckpoint "s1" "c0" "try again"].
Proof.
  intros no_fork w.
  destruct (rejected_fork_keeps_dialog no_fork (props_with []) w "c0"
              eq_refl eq_refl eq_refl eq_refl)
    as (_ & _ & Hmsg & _ & _ & _ & _ & Hsent & _).
  by split.
Defined.

End TimelineViewProofs.

(** * [extractMessageInfo] at its boundary *)

Module ExtractMessageInfoProofs.
Import Timeline TimelineProofs ExtractMessageInfo.













(** ** C10 *)




End ExtractMessageInfoProofs.
